(** * Asset-pipeline scripts of donut/scripts: a shallow embedding

    Two command-line scripts are embedded here:

    - [lz4_tar.py]    (module [Lz4Tar]): packs files into a tar archive,
      optionally compressing each entry;
    - [mat_to_gltf.py] (module [MatToGltf]): merges a material-definition
      file into the materials of a glTF scene.

    Both scripts are straight-line Python with module-level variables.
    Module-level variables become fields of an explicit state record,
    Python exceptions become the [Raise] branch of a result type, and the
    statements of each script are sequenced in a state-and-exception
    monad. *)

From Stdlib Require Import PrimFloat SpecFloat.
From Stdlib Require FloatOps.
From Stdlib Require Import ZArith List String Ascii Bool Lia.
From stdpp Require Import gmap strings list fin_maps.

#[local] Set Warnings "-register-all".
#[local] Open Scope string_scope.

(** ** Python values and exceptions shared by the two scripts *)

(** The exceptions the two scripts can raise. *)
Inductive exn :=
| KeyError | TypeError | AttributeError | ZeroDivisionError
| IndexError | NameError | ValueError | OverflowError.

Inductive result (A : Type) :=
| Ok (a : A)
| Raise (e : exn).
Arguments Ok {A} a.
Arguments Raise {A} e.

Definition rbind {A B} (r : result A) (k : A -> result B) : result B :=
  match r with
  | Ok a => k a
  | Raise e => Raise e
  end.

(** ** [lz4_tar.py] *)
Module Lz4Tar.

(** *** The functions of [os.path] the script calls

    [os.path] is taken in its POSIX flavour ([posixpath]): the separator
    is [/] and a backslash is an ordinary character of a name.  Paths
    are Python strings; the functions below work on their characters. *)

Definition str := list ascii.

Definition of_string (s : string) : str := list_ascii_of_string s.
Definition to_string (l : str) : string := string_of_list_ascii l.

Definition sep : ascii := "/"%char.
Definition dot : str := ["."%char].
Definition dotdot : str := ["."%char; "."%char].

Definition str_eqb (a b : str) : bool := bool_decide (a = b).

(** [s.split(c)]. *)
Fixpoint split (c : ascii) (s : str) : list str :=
  match s with
  | [] => [[]]
  | x :: r =>
      if Ascii.eqb x c then [] :: split c r
      else match split c r with
           | w :: ws => (x :: w) :: ws
           | [] => [[x]]
           end
  end.

(** [c.join(l)]. *)
Fixpoint join_with (c : ascii) (l : list str) : str :=
  match l with
  | [] => []
  | [w] => w
  | w :: ws => (w ++ c :: join_with c ws)%list
  end.

Definition startswith (s p : str) : bool :=
  str_eqb (take (length p) s) p.

(** The count [initial_slashes] of [normpath]: one or two leading
    slashes are kept, three or more count as one. *)
Definition initial_slashes (path : str) : nat :=
  if startswith path [sep] then
    if startswith path [sep; sep] && negb (startswith path [sep; sep; sep])
    then 2 else 1
  else 0.

(** The body of the loop [for comp in comps] of [normpath]. *)
Definition norm_step (slashes : nat) (new_comps : list str) (comp : str)
  : list str :=
  if str_eqb comp [] || str_eqb comp dot then new_comps
  else if negb (str_eqb comp dotdot)
          || ((slashes =? 0)%nat && bool_decide (new_comps = []))
          || (negb (bool_decide (new_comps = []))
              && str_eqb (List.last new_comps []) dotdot)
  then (new_comps ++ [comp])%list
  else if negb (bool_decide (new_comps = [])) then removelast new_comps
  else new_comps.

Definition or_dot (path : str) : str :=
  match path with [] => dot | _ => path end.

(** [posixpath.normpath]. *)
Definition normpath (path : str) : str :=
  match path with
  | [] => dot
  | _ =>
      let slashes := initial_slashes path in
      let comps := fold_left (norm_step slashes) (split sep path) [] in
      or_dot (repeat sep slashes ++ join_with sep comps)%list
  end.

Definition endswith_sep (a : str) : bool :=
  match rev a with
  | c :: _ => Ascii.eqb c sep
  | [] => false
  end.

(** [posixpath.join(a, b)]. *)
Definition join (a b : str) : str :=
  if startswith b [sep] then b
  else if bool_decide (a = []) || endswith_sep a
       then (a ++ b)%list
       else (a ++ sep :: b)%list.

(** [s.replace('\\', '/')]. *)
Definition replace_backslash (s : str) : str :=
  map (fun c => if Ascii.eqb c "\"%char then sep else c) s.

(** [s.rfind(c)], [-1] when [c] does not occur. *)
Fixpoint rfind_from (c : ascii) (s : str) (i : Z) (found : Z) : Z :=
  match s with
  | [] => found
  | x :: r => rfind_from c r (i + 1) (if Ascii.eqb x c then i else found)
  end.
Definition rfind (c : ascii) (s : str) : Z := rfind_from c s 0 (-1).

(** [posixpath.splitext(p)[1]]: the extension starts at the last dot of
    the last component, unless only dots precede it there. *)
Definition extension_of (p : str) : str :=
  let sepIndex := rfind sep p in
  let dotIndex := rfind "."%char p in
  if (dotIndex >? sepIndex)%Z then
    let name := drop (Z.to_nat (sepIndex + 1)) (take (Z.to_nat dotIndex) p) in
    if existsb (fun c => negb (Ascii.eqb c "."%char)) name
    then drop (Z.to_nat dotIndex) p
    else []
  else [].

(** *** The script *)

(** What stops the script before its last line. *)
Inductive halt :=
| SysExit (code : Z)
| Uncaught (e : exn).

Inductive control (A : Type) :=
| Next (a : A)
| Stop (h : halt).
Arguments Next {A} a.
Arguments Stop {A} h.

(** A member of the archive: [TarInfo.name], [TarInfo.size] and the
    bytes handed to [addfile]. *)
Record entry := mkEntry {
  entry_name : string;
  entry_size : Z;
  entry_payload : list Byte.byte
}.

(** What the script prints. *)
Inductive line :=
| PathLine (archive_path : string)
| CannotRead (path : string)
| Summary (original compressed : Z).

(** The module-level counters, the open archive and standard output. *)
Record state := mkState {
  original_size : Z;
  compressed_size : Z;
  tar : list entry;
  stdout : list line
}.

Definition M (A : Type) : Type := state -> state * control A.

Definition ret {A} (a : A) : M A := fun st => (st, Next a).
Definition stop {A} (h : halt) : M A := fun st => (st, Stop h).
Definition bind {A B} (m : M A) (k : A -> M B) : M B :=
  fun st => match m st with
            | (st', Next a) => k a st'
            | (st', Stop h) => (st', Stop h)
            end.
Definition modify (f : state -> state) : M unit := fun st => (f st, Next tt).
Definition print (l : line) : M unit :=
  modify (fun st => mkState (original_size st) (compressed_size st) (tar st)
                            (stdout st ++ [l])%list).

Notation "x <- m ;; k" := (bind m (fun x => k))
  (at level 100, m at next level, k at level 200, right associativity).
Notation "m ;; k" := (bind m (fun _ => k))
  (at level 100, k at level 200, right associativity).

Fixpoint for_each {A} (body : A -> M unit) (l : list A) : M unit :=
  match l with
  | [] => ret tt
  | x :: r => body x ;; for_each body r
  end.

(** *** [tarfile] in USTAR format

    The archive is opened with [format = tarfile.USTAR_FORMAT] (line 78).
    [TarFile.addfile] builds the header block of the member first
    ([TarInfo.tobuf], [TarInfo.create_ustar_header]) and writes nothing
    when that raises.  The header has fields of fixed width: 100 bytes
    for the name, 155 bytes for a prefix the name may be split into at a
    slash, and 11 octal digits for the size.  A name or a size that does
    not fit raises [ValueError] ("name is too long", "overflow in number
    field").  The other fields keep the defaults of [TarInfo] and always
    fit.  The lengths are those of the encoded name: a path is taken here
    as its sequence of bytes, which do not change where the script cuts
    and joins paths at [/], [.] and backslash. *)

Definition LENGTH_NAME : nat := 100.
Definition LENGTH_PREFIX : nat := 155.

(** The test of [TarInfo._posix_split_name] on the split after [i]
    components: [len(prefix) <= LENGTH_PREFIX and len(name) <=
    LENGTH_NAME]. *)
Definition split_fits (components : list str) (i : nat) : bool :=
  (length (join_with sep (take i components)) <=? LENGTH_PREFIX)%nat
  && (length (join_with sep (drop i components)) <=? LENGTH_NAME)%nat.

(** [TarInfo._posix_split_name]: the loop [for i in range(1,
    len(components))] stops at the first split that fits; [None] is the
    [ValueError] of its [else] branch. *)
Definition posix_split_name (name : str) : option (str * str) :=
  let components := split sep name in
  match List.find (split_fits components)
                  (seq 1 (length components - 1)) with
  | Some i => Some (join_with sep (take i components),
                    join_with sep (drop i components))
  | None => None
  end.

(** [itn(n, digits, USTAR_FORMAT)] returns when [0 <= n < 8 ** (digits -
    1)] and raises [ValueError] otherwise. *)
Definition itn_fits (n digits : Z) : bool :=
  (0 <=? n)%Z && (n <? 8 ^ (digits - 1))%Z.

(** Whether [create_ustar_header] returns for a member with that name
    and size: the name is split only when it is longer than
    [LENGTH_NAME], the size is a number field of 12 bytes. *)
Definition ustar_fits (name : string) (size : Z) : bool :=
  ((String.length name <=? LENGTH_NAME)%nat
   || bool_decide (posix_split_name (of_string name) <> None))
  && itn_fits size 12.

(** [tar.addfile(tarinfo, fileobj)]: the member is appended to the
    archive, unless its header raises [ValueError]. *)
Definition addfile (tarinfo : entry) : M unit :=
  if ustar_fits (entry_name tarinfo) (entry_size tarinfo)
  then modify (fun st => mkState (original_size st) (compressed_size st)
                                 (tar st ++ [tarinfo])%list (stdout st))
  else stop (Uncaught ValueError).

Section Archiver.

(** The command line: [--prefix], [--compress], [--no-compress]. *)
Variable prefix : string.
Variable compress : Z.
Variable no_compress : list string.

(** The file system: the content of a file that can be opened and read,
    the directory test and the directory walk, which yields the files of
    each directory below its argument. *)
Variable read_file : string -> option (list Byte.byte).
Variable isdir : string -> bool.
Variable walk : string -> list (string * list string).

(** [lz4.frame.compress(contents, compression_level, store_size = True)]. *)
Variable lz4_compress : Z -> list Byte.byte -> list Byte.byte.

(** Lines 44-49. *)
Definition normalize_path (path : string) : string :=
  let path1 := normpath (of_string path) in
  let path2 := if negb (String.eqb prefix "")
               then join (of_string prefix) path1 else path1 in
  to_string (replace_backslash path2).

Definition size_of (contents : list Byte.byte) : Z :=
  Z.of_nat (length contents).

(** The member of the archive for a file stored as it is. *)
Definition stored (path : string) (contents : list Byte.byte) : entry :=
  mkEntry (normalize_path path) (size_of contents) contents.

(** Lines 51-76.  Line 72 adds to [compressed_size] before line 76 hands
    the member to [tar.addfile]. *)
Definition process_file (path : string) : M unit :=
  let archive_path := normalize_path path in
  print (PathLine archive_path) ;;
  match read_file path with
  | None => print (CannotRead path) ;; stop (SysExit 1)
  | Some contents =>
      modify (fun st => mkState (original_size st + size_of contents)
                                (compressed_size st) (tar st) (stdout st)) ;;
      let extension := to_string (extension_of (of_string path)) in
      let packed :=
        if negb (compress =? 0)%Z
           && negb (existsb (String.eqb extension) no_compress)
        then (lz4_compress compress contents, archive_path ++ ".lz4")
        else (contents, archive_path) in
      modify (fun st => mkState (original_size st)
                                (compressed_size st + size_of packed.1)
                                (tar st) (stdout st)) ;;
      addfile (mkEntry packed.2 (size_of packed.1) packed.1)
  end.

(** Lines 78-88. *)
Definition process_input (input_name : string) : M unit :=
  if isdir input_name then
    for_each (fun entry : string * list string =>
                let (dirpath, filenames) := entry in
                for_each (fun file_name =>
                            process_file
                              (to_string (join (of_string dirpath)
                                               (of_string file_name))))
                         filenames)
             (walk input_name)
  else process_file input_name.

(** The member of the archive for a file stored compressed (lines 69-70
    and 74-76). *)
Definition compressed (path : string) (contents : list Byte.byte) : entry :=
  mkEntry (normalize_path path ++ ".lz4")
          (size_of (lz4_compress compress contents))
          (lz4_compress compress contents).

(** The member lines 66-75 make of a file with these contents. *)
Definition member (path : string) (contents : list Byte.byte) : entry :=
  if negb (compress =? 0)%Z
     && negb (existsb (String.eqb (to_string (extension_of (of_string path))))
                      no_compress)
  then compressed path contents
  else stored path contents.

(** Whether [tar.addfile] takes a member. *)
Definition accepted (e : entry) : bool :=
  ustar_fits (entry_name e) (entry_size e).

(** A file the loop gets past: it can be read and the archive takes its
    member. *)
Definition archivable (path : string) : bool :=
  match read_file path with
  | Some contents => accepted (member path contents)
  | None => false
  end.

(** The members of the files of a list that can be read, in its order. *)
Definition members (files : list string) : list entry :=
  flat_map (fun path => match read_file path with
                        | Some contents => [member path contents]
                        | None => []
                        end) files.

(** The sum of the sizes recorded in the members of an archive. *)
Definition total_size (members : list entry) : Z :=
  fold_right Z.add 0%Z (map entry_size members).

(** The files one input stands for, in the order lines 79-88 visit them. *)
Definition input_files (input_name : string) : list string :=
  if isdir input_name then
    flat_map (fun entry : string * list string =>
                map (fun file_name =>
                       to_string (join (of_string entry.1)
                                       (of_string file_name)))
                    entry.2)
             (walk input_name)
  else [input_name].

(** Lines 90-92: [float(original_size) / float(compressed_size)] is
    evaluated to format the summary. *)
Definition statistics : M unit :=
  if negb (compress =? 0)%Z then
    fun st =>
      if (compressed_size st =? 0)%Z then (st, Stop (Uncaught ZeroDivisionError))
      else print (Summary (original_size st) (compressed_size st)) st
  else ret tt.

Definition initial_state : state := mkState 0 0 [] [].

Definition main (inputs : list string) : state * control unit :=
  (for_each process_input inputs ;; statistics) initial_state.

(** The status the process ends with: [sys.exit(code)] gives [code], an
    uncaught exception gives 1, running off the last line gives 0. *)
Definition exit_status (r : state * control unit) : Z :=
  match r.2 with
  | Next _ => 0
  | Stop (SysExit code) => code
  | Stop (Uncaught _) => 1
  end.

End Archiver.

(** *** A name used in the examples *)

(** A name of 101 characters without a slash: it fits neither the name
    field nor a split into prefix and name. *)
Definition long_name : string :=
  "aaaaaaaaaaaaaaaaaaaaaaaaaaaaaaaaaaaaaaaaaaaaaaaaaaaaaaaaaaaaaaaaaaaaaaaaaaaaaaaaaaaaaaaaaaaaaaaaaaaaa".

End Lz4Tar.

(** ** [mat_to_gltf.py] *)
Module MatToGltf.

(** *** JSON documents as [json.load] returns them

    A JSON object is a Python [dict] with string keys, an array is a
    [list], [null] is [None].  A number without fraction and exponent is
    a Python [int], of unbounded size; any other number is a [float], a
    binary64 value, which [json.load] also gives for the literals [NaN],
    [Infinity] and [-Infinity].  A string is its sequence of 8-bit
    characters, which is Python's sequence of characters for ASCII
    text. *)
Inductive json :=
| JNull
| JBool (b : bool)
| JInt (n : Z)
| JFloat (f : float)
| JStr (s : string)
| JArr (l : list json)
| JObj (m : gmap string json).

(** Python truth value of a JSON value. *)
Definition truthy (v : json) : bool :=
  match v with
  | JNull => false
  | JBool b => b
  | JInt n => negb (n =? 0)%Z
  | JFloat f => negb (PrimFloat.eqb f 0)
  | JStr s => negb (String.eqb s "")
  | JArr l => match l with [] => false | _ => true end
  | JObj m => negb (bool_decide (m = ∅))
  end.

(** [d.get(k, dflt)]: only a dict has the method. *)
Definition dict_get (d : json) (k : string) (dflt : json) : result json :=
  match d with
  | JObj m => Ok (default dflt (m !! k))
  | _ => Raise AttributeError
  end.

(** [d[k]] with a string key [k]: a missing key of a dict is a
    [KeyError]; lists and strings refuse a string index and the other
    values are not subscriptable, both with [TypeError]. *)
Definition subscript (d : json) (k : string) : result json :=
  match d with
  | JObj m => match m !! k with Some v => Ok v | None => Raise KeyError end
  | _ => Raise TypeError
  end.

Definition chars (s : string) : list json :=
  map (fun c => JStr (String c EmptyString)) (list_ascii_of_string s).

(** [v[i]] with an integer index [i]. *)
Definition index (v : json) (i : nat) : result json :=
  match v with
  | JArr l => match l !! i with Some x => Ok x | None => Raise IndexError end
  | JStr s => match chars s !! i with Some x => Ok x | None => Raise IndexError end
  | JObj _ => Raise KeyError
  | _ => Raise TypeError
  end.

(** [len(v)]. *)
Definition py_len (v : json) : result nat :=
  match v with
  | JArr l => Ok (length l)
  | JStr s => Ok (String.length s)
  | JObj m => Ok (size m)
  | _ => Raise TypeError
  end.

(** [any(v)]: iterating a string yields its (truthy) characters,
    iterating a dict yields its keys. *)
Definition py_any (v : json) : result bool :=
  match v with
  | JArr l => Ok (existsb truthy l)
  | JStr s => Ok (negb (String.eqb s ""))
  | JObj m => Ok (existsb (fun kv => negb (String.eqb kv.1 "")) (map_to_list m))
  | _ => Raise TypeError
  end.

(** *** Arithmetic

    The operands of arithmetic: [bool] is a subclass of [int]. *)
Inductive num :=
| NInt (n : Z)
| NFloat (f : float).

Definition as_num (v : json) : option num :=
  match v with
  | JInt n => Some (NInt n)
  | JBool b => Some (NInt (if b then 1 else 0))
  | JFloat f => Some (NFloat f)
  | _ => None
  end.

(** A correctly rounded binary64 result as Python hands it out: where
    the rounding of an [int] or of a quotient of [int]s overflows,
    Python raises [OverflowError] in place of an infinity. *)
Definition round_to_float (f : spec_float) : result float :=
  match f with
  | S754_infinity _ => Raise OverflowError
  | _ => Ok (FloatOps.SF2Prim f)
  end.

(** The conversion of an [int] operand that meets a [float]: the nearest
    binary64 value, ties to even. *)
Definition float_of_int (n : Z) : result float :=
  round_to_float (binary_normalize FloatOps.prec FloatOps.emax n 0 false).

Definition to_float (x : num) : result float :=
  match x with
  | NInt n => float_of_int n
  | NFloat f => Ok f
  end.

(** An [int] as the exact (unrounded) operand of a division. *)
Definition exact_int (n : Z) : spec_float :=
  match n with
  | Z0 => S754_zero false
  | Zpos p => S754_finite false p 0
  | Zneg p => S754_finite true p 0
  end.

(** [a / b] for two [int]s: the quotient is rounded once, from its exact
    value; the zero divisor is tested first. *)
Definition int_true_divide (a b : Z) : result float :=
  if (b =? 0)%Z then Raise ZeroDivisionError
  else round_to_float
         (SFdiv FloatOps.prec FloatOps.emax (exact_int a) (exact_int b)).

(** [a / b] when one operand is a [float]: both operands are converted
    before the divisor is tested. *)
Definition float_div (x y : num) : result float :=
  rbind (to_float x) (fun a =>
  rbind (to_float y) (fun b =>
    if PrimFloat.eqb b 0 then Raise ZeroDivisionError
    else Ok (a / b)%float)).

(** [a + b]: two [int]s add exactly, a [float] operand makes the sum a
    [float]; strings and lists concatenate. *)
Definition py_add (a b : json) : result json :=
  match as_num a, as_num b with
  | Some (NInt x), Some (NInt y) => Ok (JInt (x + y))
  | Some x, Some y =>
      rbind (to_float x) (fun x' =>
      rbind (to_float y) (fun y' => Ok (JFloat (x' + y')%float)))
  | _, _ =>
      match a, b with
      | JStr s, JStr t => Ok (JStr (s ++ t))
      | JArr l, JArr r => Ok (JArr (l ++ r))
      | _, _ => Raise TypeError
      end
  end.

(** [a / b], true division. *)
Definition py_div (a b : json) : result json :=
  match as_num a, as_num b with
  | Some (NInt x), Some (NInt y) =>
      rbind (int_true_divide x y) (fun q => Ok (JFloat q))
  | Some x, Some y => rbind (float_div x y) (fun q => Ok (JFloat q))
  | _, _ => Raise TypeError
  end.

(** [a - b]. *)
Definition py_sub (a b : json) : result json :=
  match as_num a, as_num b with
  | Some (NInt x), Some (NInt y) => Ok (JInt (x - y))
  | Some x, Some y =>
      rbind (to_float x) (fun x' =>
      rbind (to_float y) (fun y' => Ok (JFloat (x' - y')%float)))
  | _, _ => Raise TypeError
  end.

(** A number of Python: an [int], a [bool] or a [float]. *)
Definition is_number (v : json) : bool :=
  match as_num v with
  | Some _ => true
  | None => false
  end.

(** Two values that add up to a number that is zero: the [int] 0, or the
    [float] 0.0 of either sign. *)
Definition zero_sum (s d : json) : bool :=
  match py_add s d with
  | Ok z => is_number z && negb (truthy z)
  | Raise _ => false
  end.

(** [f == n] for a [float] and an [int] compares the exact values. *)
Definition float_eq_int (f : float) (n : Z) : bool :=
  match FloatOps.Prim2SF f with
  | S754_zero _ => (n =? 0)%Z
  | S754_finite s m e =>
      let v := if s then Zneg m else Zpos m in
      if (0 <=? e)%Z then (n =? v * 2 ^ e)%Z
      else (v mod 2 ^ (- e) =? 0)%Z && (n =? v / 2 ^ (- e))%Z
  | _ => false
  end.

(** [v == path] for a string [path]. *)
Definition eq_str (v : json) (path : string) : bool :=
  match v with
  | JStr s => String.eqb s path
  | _ => false
  end.

(** [v == i] for an image index [i], which is an [int] or [None]. *)
Definition eq_index (v : json) (i : option nat) : bool :=
  match i, v with
  | None, JNull => true
  | Some n, JInt z => (z =? Z.of_nat n)%Z
  | Some n, JFloat f => float_eq_int f (Z.of_nat n)
  | Some n, JBool b => Nat.eqb n (if b then 1 else 0)
  | _, _ => false
  end.

(** *** The module-level variables of the script *)
Record state := mkState {
  mat : gmap string json;        (* the loaded material definitions *)
  images : list json;            (* gltf["images"] *)
  textures : list json;          (* gltf["textures"] *)
  anyDdsTextures : bool;
  newmatlist : list json;
  diffuseFactor : option json;   (* unbound until its first assignment *)
  stdout : list string
}.

Definition M (A : Type) : Type := state -> state * result A.

Definition ret {A} (a : A) : M A := fun st => (st, Ok a).
Definition raise {A} (e : exn) : M A := fun st => (st, Raise e).
Definition bind {A B} (m : M A) (k : A -> M B) : M B :=
  fun st => match m st with
            | (st', Ok a) => k a st'
            | (st', Raise e) => (st', Raise e)
            end.
Definition lift {A} (r : result A) : M A := fun st => (st, r).
Definition gets {A} (f : state -> A) : M A := fun st => (st, Ok (f st)).
Definition modify (f : state -> state) : M unit := fun st => (f st, Ok tt).

Notation "x <- m ;; k" := (bind m (fun x => k))
  (at level 100, m at next level, k at level 200, right associativity).
Notation "m ;; k" := (bind m (fun _ => k))
  (at level 100, k at level 200, right associativity).

Definition set_images (l : list json) (st : state) : state :=
  mkState (mat st) l (textures st) (anyDdsTextures st) (newmatlist st)
          (diffuseFactor st) (stdout st).
Definition set_textures (l : list json) (st : state) : state :=
  mkState (mat st) (images st) l (anyDdsTextures st) (newmatlist st)
          (diffuseFactor st) (stdout st).
Definition set_anyDdsTextures (b : bool) (st : state) : state :=
  mkState (mat st) (images st) (textures st) b (newmatlist st)
          (diffuseFactor st) (stdout st).
Definition set_newmatlist (l : list json) (st : state) : state :=
  mkState (mat st) (images st) (textures st) (anyDdsTextures st) l
          (diffuseFactor st) (stdout st).
Definition set_diffuseFactor (v : option json) (st : state) : state :=
  mkState (mat st) (images st) (textures st) (anyDdsTextures st)
          (newmatlist st) v (stdout st).
Definition set_mat (m : gmap string json) (st : state) : state :=
  mkState m (images st) (textures st) (anyDdsTextures st) (newmatlist st)
          (diffuseFactor st) (stdout st).
Definition print (line : string) : M unit :=
  modify (fun st =>
    mkState (mat st) (images st) (textures st) (anyDdsTextures st)
            (newmatlist st) (diffuseFactor st) (stdout st ++ [line])).

(** *** [add_image] (lines 42-50) *)

(** The [for image in images] loop: [inl i] is the early [return
    imageIndex], [inr n] the value of the counter when the loop runs out. *)
Fixpoint find_image (path : string) (imgs : list json) (imageIndex : nat)
  : result (nat + nat) :=
  match imgs with
  | [] => Ok (inr imageIndex)
  | image :: rest =>
      rbind (subscript image "uri") (fun uri =>
        if eq_str uri path then Ok (inl imageIndex)
        else find_image path rest (S imageIndex))
  end.

Definition add_image (path : string) : M nat :=
  imgs <- gets images ;;
  r <- lift (find_image path imgs 0) ;;
  match r with
  | inl imageIndex => ret imageIndex
  | inr imageIndex =>
      modify (set_images (imgs ++ [JObj {[ "uri" := JStr path ]}])) ;;
      ret imageIndex
  end.

(** *** [add_texture] (lines 52-86) *)

Definition lower_ascii (c : ascii) : ascii :=
  let n := nat_of_ascii c in
  if (65 <=? n)%nat && (n <=? 90)%nat then ascii_of_nat (n + 32) else c.

Fixpoint lower (s : string) : string :=
  match s with
  | EmptyString => EmptyString
  | String c r => String (lower_ascii c) (lower r)
  end.

Definition endswith (s suffix : string) : bool :=
  let n := String.length s in
  let k := String.length suffix in
  (k <=? n)%nat && String.eqb (substring (n - k) k s) suffix.

(** [path[:-4]]. *)
Definition strip4 (path : string) : string :=
  substring 0 (String.length path - 4) path.

(** An image index as the script stores it in a texture. *)
Definition index_json (i : nat) : json := JInt (Z.of_nat i).

(** The [for texture in textures] loop, with the same convention as
    [find_image].  [texture["source"]] is evaluated first, so a texture
    that is not a dict, or a dict without that key, raises before the
    [or] is looked at; ["extensions" in texture] is then a key test. *)
Fixpoint find_texture (regularImage ddsImage : option nat)
    (texs : list json) (textureIndex : nat) : result (nat + nat) :=
  match texs with
  | [] => Ok (inr textureIndex)
  | texture :: rest =>
      rbind (subscript texture "source") (fun source =>
        if eq_index source regularImage then Ok (inl textureIndex)
        else
          match texture with
          | JObj t =>
              match t !! "extensions" with
              | Some ext =>
                  rbind (subscript ext "MSFT_texture_dds") (fun dds =>
                  rbind (subscript dds "source") (fun ddsSource =>
                    if eq_index ddsSource ddsImage then Ok (inl textureIndex)
                    else find_texture regularImage ddsImage rest
                           (S textureIndex)))
              | None =>
                  find_texture regularImage ddsImage rest (S textureIndex)
              end
          | _ => Raise TypeError
          end)
  end.

(** The dict built at lines 80-84. *)
Definition new_texture (regularImage ddsImage : option nat) : json :=
  let t0 : gmap string json := ∅ in
  let t1 := match regularImage with
            | Some i => <[ "source" := index_json i ]> t0
            | None => t0
            end in
  let t2 := match ddsImage with
            | Some i =>
                <[ "extensions" :=
                     JObj {[ "MSFT_texture_dds" :=
                               JObj {[ "source" := index_json i ]} ]} ]> t1
            | None => t1
            end in
  JObj t2.

Section Merger.

(** [os.path.exists], fixed for the duration of the run. *)
Variable path_exists : string -> bool.

(** [args.spec_gloss]. *)
Variable spec_gloss : bool.

(** Lines 53-71: the images behind a texture path.  [path.lower()] needs
    a string; any other JSON value has no such method. *)
Definition texture_images (path : string) : M (option nat * option nat) :=
  if endswith (lower path) ".dds" then
    modify (set_anyDdsTextures true) ;;
    regularImage <-
      (if path_exists (strip4 path ++ ".png") then
         i <- add_image (strip4 path ++ ".png") ;; ret (Some i)
       else if path_exists (strip4 path ++ ".jpg") then
         i <- add_image (strip4 path ++ ".jpg") ;; ret (Some i)
       else
         print ("WARNING: non-DDS texture not found for %s " ++ path) ;;
         ret None) ;;
    ddsImage <- add_image path ;;
    ret (regularImage, Some ddsImage)
  else
    regularImage <- add_image path ;;
    ret (Some regularImage, None).

Definition add_texture (v : json) : M nat :=
  match v with
  | JStr path =>
      p <- texture_images path ;;
      let '(regularImage, ddsImage) := p in
      texs <- gets textures ;;
      r <- lift (find_texture regularImage ddsImage texs 0) ;;
      match r with
      | inl textureIndex => ret textureIndex
      | inr textureIndex =>
          modify (set_textures (texs ++ [new_texture regularImage ddsImage])) ;;
          ret textureIndex
      end
  | _ => raise AttributeError
  end.

(** *** The material loop (lines 89-178) *)

(** Line 92, [mat[matnode["name"]]].  The keys of [mat] are strings: a
    name that is a number, a boolean or [null] is hashable and simply
    not found, a list or a dict is unhashable. *)
Definition lookup_matdef (m : gmap string json) (matnode : json)
  : result (string * json) :=
  rbind (subscript matnode "name") (fun name =>
    match name with
    | JStr s =>
        match m !! s with
        | Some matdef => Ok (s, matdef)
        | None => Raise KeyError
        end
    | JArr _ | JObj _ => Raise TypeError
    | _ => Raise KeyError
    end).

(** Line 96 evaluates the attribute [matnode.name] for the message.
    [matnode] is a value loaded from JSON, and none of those has an
    attribute [name]. *)
Definition getattr_name (matnode : json) : result string :=
  Raise AttributeError.

Definition warn_missing (matnode : json) : M unit :=
  n <- lift (getattr_name matnode) ;;
  print ("Definition for %s not found " ++ n).

(** Lines 97-98: [newmatlist.append(matnode); continue], where [matnode]
    is still the node of the scene, line 93 not having been reached. *)
Definition passthrough (matnode : json) : M unit :=
  modify (fun st => set_newmatlist (newmatlist st ++ [matnode]) st).

(** Lines 100-107. *)
Definition alpha_mode (matdef : json) (node : gmap string json)
  : result (gmap string json) :=
  rbind (dict_get matdef "AlphaTested" (JBool false)) (fun alphaTested =>
    if truthy alphaTested then
      Ok (<[ "doubleSided" := JBool true ]>
            (<[ "alphaMode" := JStr "MASK" ]> node))
    else
      rbind (dict_get matdef "Transparent" (JBool false)) (fun transparent =>
        if truthy transparent then
          Ok (<[ "doubleSided" := JBool true ]>
                (<[ "alphaMode" := JStr "BLEND" ]> node))
        else
          Ok (<[ "alphaMode" := JStr "OPAQUE" ]> node))).

(** Lines 109-111; [and] does not evaluate [len] when [any] is false. *)
Definition emissive_factor (matdef : json) (node : gmap string json)
  : result (gmap string json) :=
  rbind (dict_get matdef "Emittance" (JArr [])) (fun emittance =>
  rbind (py_any emittance) (fun a =>
    if a then
      rbind (py_len emittance) (fun n =>
        if (n =? 3)%nat then Ok (<[ "emissiveFactor" := emittance ]> node)
        else Ok node)
    else Ok node)).

Definition texture_ref (i : nat) : json := JObj {[ "index" := index_json i ]}.

(** One texture slot of lines 122-142: [texdefs.get(slot)], and when it
    is truthy the texture reference stored under [key] in [target]. *)
Definition texture_slot (texdefs : json) (slot key : string)
    (target : gmap string json) : M (json * gmap string json) :=
  tex <- lift (dict_get texdefs slot JNull) ;;
  if truthy tex then
    i <- add_texture tex ;;
    ret (tex, <[ key := texture_ref i ]> target)
  else ret (tex, target).

(** Lines 120-145.  The result carries the node, the shading block and
    the variables [diffuseTexture] and [specularTexture]. *)
Definition texture_slots (matdef : json) (node block : gmap string json)
  : M (gmap string json * gmap string json * json * json) :=
  texdefs <- lift (dict_get matdef "Textures" (JObj ∅)) ;;
  if truthy texdefs then
    r1 <- texture_slot texdefs "Emittance" "emissiveTexture" node ;;
    r2 <- texture_slot texdefs "Bumpmap" "normalTexture" r1.2 ;;
    r3 <- texture_slot texdefs "Diffuse"
            (if spec_gloss then "diffuseTexture" else "baseColorTexture")
            block ;;
    r4 <- texture_slot texdefs "Specular"
            (if spec_gloss then "specularGlossinessTexture"
             else "metallicRoughnessTexture")
            r3.2 ;;
    ret (r2.2, r4.2, r3.1, r4.1)
  else ret (node, block, JNull, JNull).

Definition set_field (k : string) (v : json) (d : json) : json :=
  match d with
  | JObj m => JObj (<[ k := v ]> m)
  | _ => d
  end.

(** Lines 149-153 and 163-167.  [diffuseFactor] is the very list held by
    the definition, so [append] changes the definition in [mat] too; the
    name [diffuseFactor] stays bound after the iteration. *)
Definition diffuse_factor (name : string) (matdef : json) (key : string)
    (block : gmap string json) : M (gmap string json) :=
  d <- lift (dict_get matdef "Diffuse" JNull) ;;
  modify (set_diffuseFactor (Some d)) ;;
  opacity <- lift (dict_get matdef "Opacity" (JFloat 1)) ;;
  n <- lift (py_len d) ;;
  if (n =? 3)%nat then
    match d with
    | JArr l =>
        let d' := JArr (l ++ [opacity]) in
        modify (set_diffuseFactor (Some d')) ;;
        modify (fun st =>
                  set_mat (alter (set_field "Diffuse" d') name (mat st)) st) ;;
        ret (<[ key := d' ]> block)
    | _ => raise AttributeError
    end
  else ret block.

(** Lines 156-160. *)
Definition specular_gloss (matdef : json) (block : gmap string json)
  : result (gmap string json) :=
  rbind (dict_get matdef "Specular" JNull) (fun specularFactor =>
  rbind (py_len specularFactor) (fun n =>
    let block1 := if (n =? 3)%nat
                  then <[ "specularFactor" := specularFactor ]> block
                  else block in
    rbind (dict_get matdef "Shininess" JNull) (fun shininess =>
      Ok (<[ "glossinessFactor" := shininess ]> block1)))).

(** One round of the loop of lines 173-174:
    [specularFactor[i] / (specularFactor[i] + diffuseFactor[i])] added to
    [metallicFactor].  [diffuseFactor] is read from the module-level
    variable, whichever iteration bound it last. *)
Definition metallic_channel (specularFactor : json) (metallicFactor : json)
    (i : nat) : M json :=
  s <- lift (index specularFactor i) ;;
  s' <- lift (index specularFactor i) ;;
  bound <- gets diffuseFactor ;;
  match bound with
  | None => raise NameError
  | Some diffuse =>
      d <- lift (index diffuse i) ;;
      sum <- lift (py_add s' d) ;;
      q <- lift (py_div s sum) ;;
      lift (py_add metallicFactor q)
  end.

(** Lines 170-178. *)
Definition metallic_roughness (matdef : json) (block : gmap string json)
  : M (gmap string json) :=
  specularFactor <- lift (dict_get matdef "Specular" JNull) ;;
  n <- lift (py_len specularFactor) ;;
  block1 <-
    (if (n =? 3)%nat then
       m0 <- metallic_channel specularFactor (JInt 0) 0 ;;
       m1 <- metallic_channel specularFactor m0 1 ;;
       m2 <- metallic_channel specularFactor m1 2 ;;
       metallicFactor <- lift (py_div m2 (JFloat 3)) ;;
       ret (<[ "metallicFactor" := metallicFactor ]> block)
     else ret block) ;;
  shininess <- lift (dict_get matdef "Shininess" JNull) ;;
  roughness <- lift (py_sub (JFloat 1) shininess) ;;
  ret (<[ "roughnessFactor" := roughness ]> block1).

(** Lines 147-178. *)
Definition factors (name : string) (matdef : json)
    (block : gmap string json) (diffuseTexture specularTexture : json)
  : M (gmap string json) :=
  if spec_gloss then
    block1 <- (if negb (truthy diffuseTexture)
               then diffuse_factor name matdef "diffuseFactor" block
               else ret block) ;;
    if negb (truthy specularTexture)
    then lift (specular_gloss matdef block1)
    else ret block1
  else
    block1 <- (if negb (truthy diffuseTexture)
               then diffuse_factor name matdef "baseColorFactor" block
               else ret block) ;;
    if negb (truthy specularTexture)
    then metallic_roughness matdef block1
    else ret block1.

(** Lines 113-118: the shading block is stored in the node by reference,
    so the node shows the block as the rest of the iteration fills it. *)
Definition attach_block (node block : gmap string json) : gmap string json :=
  if spec_gloss then
    <[ "extensions" :=
         JObj {[ "KHR_materials_pbrSpecularGlossiness" := JObj block ]} ]> node
  else
    <[ "pbrMetallicRoughness" := JObj block ]> node.

(** Lines 93-178 for a node whose definition was found.  Line 94 appends
    the new node to [newmatlist] by reference before it is filled; the
    list therefore holds the node as the iteration leaves it, which is
    what is appended here.  An iteration that raises ends the script,
    and [newmatlist] is not read again: the node it had begun is left
    out of the list here. *)
Definition rewrite_matnode (name : string) (matdef : json) : M unit :=
  let node0 : gmap string json := {[ "name" := JStr name ]} in
  node1 <- lift (alpha_mode matdef node0) ;;
  node2 <- lift (emissive_factor matdef node1) ;;
  r <- texture_slots matdef node2 ∅ ;;
  let '(node3, block, diffuseTexture, specularTexture) := r in
  block' <- factors name matdef block diffuseTexture specularTexture ;;
  modify (fun st =>
    set_newmatlist (newmatlist st ++ [JObj (attach_block node3 block')]) st).

(** One iteration of the loop of line 90. *)
Definition process_matnode (matnode : json) : M unit :=
  m <- gets mat ;;
  match lookup_matdef m matnode with
  | Ok (name, matdef) => rewrite_matnode name matdef
  | Raise KeyError => warn_missing matnode ;; passthrough matnode
  | Raise e => raise e
  end.

Fixpoint material_loop (materials : list json) : M unit :=
  match materials with
  | [] => ret tt
  | matnode :: rest => process_matnode matnode ;; material_loop rest
  end.

End Merger.

(** *** The whole script *)

(** The parts of the scene document the script reads and rewrites.  The
    arrays [extensionsUsed], [textures] and [images] are created empty by
    lines 24-40 when the document lacks them.  The document is taken to
    have its [materials] array, which line 90 reads by subscript. *)
Record gltf := mkGltf {
  materials : list json;
  gltf_textures : list json;
  gltf_images : list json;
  extensionsUsed : list json
}.

Definition initial_state (defs : gmap string json) (doc : gltf) : state :=
  mkState defs (gltf_images doc) (gltf_textures doc) false [] None [].

(** Lines 182-187. *)
Definition finalize (spec_gloss : bool) (doc : gltf) (st : state) : gltf :=
  mkGltf (newmatlist st) (textures st) (images st)
    (extensionsUsed doc
       ++ (if spec_gloss
           then [JStr "KHR_materials_pbrSpecularGlossiness"] else [])
       ++ (if anyDdsTextures st then [JStr "MSFT_texture_dds"] else [])).

(** The script from the loaded documents to the document it writes, or
    the exception that ends it. *)
Definition merge (path_exists : string -> bool) (spec_gloss : bool)
    (defs : gmap string json) (doc : gltf) : result gltf :=
  match material_loop path_exists spec_gloss (materials doc)
          (initial_state defs doc) with
  | (st, Ok _) => Ok (finalize spec_gloss doc st)
  | (_, Raise e) => Raise e
  end.

(** *** Reading the state of the image list *)

(** The URIs of the entries of the image list. *)
Definition uris (imgs : list json) : list json :=
  omap (fun image => match image with
                     | JObj m => m !! "uri"
                     | _ => None
                     end) imgs.

(** A step keeps a property of the state, whether it returns or raises. *)
Definition preserves {A} (I : state -> Prop) (m : M A) : Prop :=
  forall st, I st -> I (m st).1.

(** Whether a definition names a diffuse texture: the test of line 131
    on the definition [md]. *)
Definition names_diffuse_texture (md : gmap string json) : bool :=
  match md !! "Textures" with
  | Some (JObj slots) =>
      match slots !! "Diffuse" with
      | Some v => truthy v
      | None => false
      end
  | _ => false
  end.

(** The file whose image line 75 compares as the regular one: the path
    itself, or for a DDS path its PNG companion, else its JPEG
    companion, else none (lines 53-71). *)
Definition regular_path (path_exists : string -> bool) (path : string)
  : option string :=
  if endswith (lower path) ".dds" then
    if path_exists (strip4 path ++ ".png") then Some (strip4 path ++ ".png")
    else if path_exists (strip4 path ++ ".jpg")
         then Some (strip4 path ++ ".jpg")
         else None
  else Some path.

(** The DDS file of a path, if it is one. *)
Definition dds_path (path : string) : option string :=
  if endswith (lower path) ".dds" then Some path else None.

(** The image at index [i] carries the URI [u]; [None] stands on both
    sides for an image the texture does not have. *)
Definition image_is (imgs : list json) (i : option nat) (u : option string)
  : Prop :=
  match i, u with
  | Some n, Some uri =>
      exists image,
        imgs !! n = Some image /\ subscript image "uri" = Ok (JStr uri)
  | None, None => True
  | _, _ => False
  end.

(** What lines 93-118 put in the node they write for the material
    [name]: the name, an alpha mode with [doubleSided] set unless the
    mode is [OPAQUE], and the shading block of the mode of the run, the
    other block being absent. *)
Definition rewritten_node (spec_gloss : bool) (name : string) (o : json)
  : Prop :=
  subscript o "name" = Ok (JStr name)
  /\ (exists mode,
        subscript o "alphaMode" = Ok (JStr mode)
        /\ In mode ["OPAQUE"; "MASK"; "BLEND"]
        /\ subscript o "doubleSided"
           = if String.eqb mode "OPAQUE" then Raise KeyError
             else Ok (JBool true))
  /\ if spec_gloss then
       subscript o "pbrMetallicRoughness" = Raise KeyError
       /\ exists block,
            subscript o "extensions"
            = Ok (JObj {[ "KHR_materials_pbrSpecularGlossiness"
                            := JObj block ]})
     else
       subscript o "extensions" = Raise KeyError
       /\ exists block, subscript o "pbrMetallicRoughness" = Ok (JObj block).

(** *** Documents used in the examples *)

Definition obj (fields : list (string * json)) : json :=
  JObj (list_to_map fields).

Definition scene_of (nodes : list json) : gltf := mkGltf nodes [] [] [].

(** No companion file exists. *)
Definition no_file (path : string) : bool := false.

(** The definition of the example of the specification. *)
Definition M1_definition : json :=
  obj [("AlphaTested", JBool true);
       ("Diffuse", JArr [JInt 1; JInt 0; JInt 0]);
       ("Specular", JArr [JInt 0; JInt 0; JInt 0]);
       ("Shininess", JFloat 0.5)].

(** A scene node carrying more than its name. *)
Definition legacy_node : json :=
  obj [("name", JStr "Unknown"); ("doubleSided", JBool true)].

(** A definition with a given emissive color and nothing that stops the
    rewriting. *)
Definition emissive_definition (emittance : json) : json :=
  obj [("Emittance", emittance);
       ("Diffuse", JArr [JInt 1; JInt 1; JInt 1]);
       ("Specular", JArr [JInt 0; JInt 0; JInt 0]);
       ("Shininess", JFloat 0.5)].

(** A definition whose only texture is a DDS diffuse map. *)
Definition dds_definition : json :=
  obj [("Textures", obj [("Diffuse", JStr "wall.dds")]);
       ("Specular", JArr [JInt 1; JInt 1; JInt 1]);
       ("Shininess", JFloat 0.5)].

(** A definition without diffuse color, with two DDS maps. *)
Definition two_dds_definition : json :=
  obj [("Textures", obj [("Emittance", JStr "glow.dds");
                         ("Bumpmap", JStr "bump.dds")])].

End MatToGltf.

(** * Properties of [lz4_tar.py] *)
Module Lz4TarProofs.
Import Lz4Tar.
#[local] Open Scope list_scope.

(** *** [split] and [join_with] *)

Lemma split_not_nil c s : split c s <> [].
Proof.
  destruct s as [|x r]; simpl; [discriminate|].
  destruct (Ascii.eqb x c); [discriminate|].
  destruct (split c r); discriminate.
Qed.

Lemma split_Forall (P : ascii -> Prop) c s :
  Forall P s -> Forall (Forall P) (split c s).
Proof.
  induction 1 as [|x r Hx Hr IH]; simpl.
  - repeat constructor.
  - destruct (Ascii.eqb x c).
    + constructor; [constructor | exact IH].
    + destruct (split c r) as [|w ws]; [repeat constructor; exact Hx|].
      inversion IH; subst. constructor; [constructor|]; assumption.
Qed.

Lemma split_no_sep c s : Forall (fun w => ~ In c w) (split c s).
Proof.
  induction s as [|x r IH]; simpl.
  - constructor; [intros []|constructor].
  - destruct (Ascii.eqb_spec x c) as [->|Hne].
    + constructor; [intros []|exact IH].
    + destruct (split c r) as [|w ws].
      * constructor; [|constructor]. intros [H|[]]. congruence.
      * inversion IH; subst. constructor; [|assumption].
        intros [H|H]; [congruence|auto].
Qed.

Lemma split_word c w : ~ In c w -> split c w = [w].
Proof.
  induction w as [|x r IH]; simpl; intros Hn; [reflexivity|].
  destruct (Ascii.eqb_spec x c) as [->|Hne]; [exfalso; auto|].
  rewrite IH by auto. reflexivity.
Qed.

Lemma split_word_sep c w rest :
  ~ In c w -> split c (w ++ c :: rest) = w :: split c rest.
Proof.
  induction w as [|x r IH]; simpl; intros Hn.
  - now rewrite Ascii.eqb_refl.
  - destruct (Ascii.eqb_spec x c) as [->|Hne]; [exfalso; auto|].
    rewrite IH by auto. reflexivity.
Qed.

Lemma split_join c cs :
  cs <> [] -> Forall (fun w => ~ In c w) cs -> split c (join_with c cs) = cs.
Proof.
  induction cs as [|w ws IH]; intros Hne Hall; [congruence|].
  inversion Hall as [|? ? Hw Hws]; subst.
  destruct ws as [|w' ws'].
  - simpl. now apply split_word.
  - change (join_with c (w :: w' :: ws'))
      with (w ++ c :: join_with c (w' :: ws')).
    rewrite split_word_sep by assumption.
    rewrite IH; [reflexivity|discriminate|assumption].
Qed.

Lemma join_with_Forall (P : ascii -> Prop) c cs :
  P c -> Forall (Forall P) cs -> Forall P (join_with c cs).
Proof.
  intros Hc. induction 1 as [|w ws Hw Hws IH]; [constructor|].
  destruct ws as [|w' ws']; [exact Hw|].
  change (join_with c (w :: w' :: ws'))
    with (w ++ c :: join_with c (w' :: ws')).
  apply Forall_app. split; [exact Hw|]. constructor; assumption.
Qed.
Lemma str_eqb_eq a b : str_eqb a b = true <-> a = b.
Proof. unfold str_eqb. apply bool_decide_eq_true. Qed.

Lemma norm_step_cases k acc x :
  norm_step k acc x = acc
  \/ (norm_step k acc x = (acc ++ [x])%list /\ x <> [] /\ x <> dot)
  \/ (exists acc' y, acc = (acc' ++ [y])%list /\ norm_step k acc x = acc').
Proof.
  unfold norm_step.
  destruct (str_eqb x [] || str_eqb x dot) eqn:Eskip; [now left|].
  apply orb_false_elim in Eskip as [E1 E2].
  match goal with |- context [if ?b then _ else _] => destruct b end.
  - right; left. split; [reflexivity|].
    split; intros ->; [now rewrite (proj2 (str_eqb_eq _ _)) in E1
                      | now rewrite (proj2 (str_eqb_eq _ _)) in E2].
  - case_bool_decide as Hnil; simpl; [now left|].
    right; right.
    destruct (exists_last Hnil) as (acc' & y & ->).
    exists acc', y. split; [reflexivity|]. apply removelast_last.
Qed.

Lemma norm_fold_length k xs acc :
  length (fold_left (norm_step k) xs acc) <= length acc + length xs.
Proof.
  revert acc. induction xs as [|x xs IH]; intros acc; simpl; [lia|].
  specialize (IH (norm_step k acc x)).
  destruct (norm_step_cases k acc x) as [E|[[E _]|(acc' & y & -> & E)]];
    rewrite E in *; rewrite ?length_app in *; simpl in *; lia.
Qed.

Lemma norm_fold_Forall (Q : str -> Prop) k xs acc :
  Forall Q acc -> Forall Q xs -> Forall Q (fold_left (norm_step k) xs acc).
Proof.
  revert acc. induction xs as [|x xs IH]; intros acc Hacc Hxs; simpl;
    [exact Hacc|].
  inversion Hxs as [|? ? Hx Hxs']; subst. apply IH; [|exact Hxs'].
  destruct (norm_step_cases k acc x) as [E|[[E _]|(acc' & y & -> & E)]];
    rewrite E.
  - exact Hacc.
  - apply Forall_app. split; [exact Hacc|]. constructor; [exact Hx|constructor].
  - apply Forall_app in Hacc. tauto.
Qed.

Lemma norm_fold_proper k xs acc :
  Forall (fun w => w <> [] /\ w <> dot) acc ->
  Forall (fun w => w <> [] /\ w <> dot) (fold_left (norm_step k) xs acc).
Proof.
  revert acc. induction xs as [|x xs IH]; intros acc Hacc; simpl;
    [exact Hacc|].
  apply IH.
  destruct (norm_step_cases k acc x) as [E|[[E Hx]|(acc' & y & -> & E)]];
    rewrite E.
  - exact Hacc.
  - apply Forall_app. split; [exact Hacc|]. constructor; [exact Hx|constructor].
  - apply Forall_app in Hacc. tauto.
Qed.

(** A list of components is left alone by the loop of [normpath] when
    running the loop on it rebuilds it. *)
Lemma stable_snoc_inv k acc y :
  fold_left (norm_step k) (acc ++ [y])%list [] = (acc ++ [y])%list ->
  fold_left (norm_step k) acc [] = acc.
Proof.
  rewrite fold_left_app. simpl. intros H.
  pose proof (norm_fold_length k acc []) as Hlen. simpl in Hlen.
  destruct (norm_step_cases k (fold_left (norm_step k) acc []) y)
    as [E|[[E _]|(r' & z & Er & E)]]; rewrite E in H.
  - rewrite H, length_app in Hlen. simpl in Hlen. lia.
  - now apply app_inj_tail in H as [H _].
  - rewrite Er, H, !length_app in Hlen. simpl in Hlen. lia.
Qed.

Lemma stable_step k acc x :
  fold_left (norm_step k) acc [] = acc ->
  fold_left (norm_step k) (norm_step k acc x) [] = norm_step k acc x.
Proof.
  intros Hst.
  destruct (norm_step_cases k acc x) as [E|[[E _]|(acc' & y & -> & E)]].
  - now rewrite E.
  - rewrite E at 1. rewrite fold_left_app, Hst. reflexivity.
  - rewrite E. now apply stable_snoc_inv in Hst.
Qed.

Lemma stable_fold k xs acc :
  fold_left (norm_step k) acc [] = acc ->
  fold_left (norm_step k) (fold_left (norm_step k) xs acc) []
  = fold_left (norm_step k) xs acc.
Proof.
  revert acc. induction xs as [|x xs IH]; intros acc Hst; simpl;
    [exact Hst|].
  apply IH. now apply stable_step.
Qed.

Lemma norm_step_nil k acc : norm_step k acc [] = acc.
Proof. reflexivity. Qed.

Lemma norm_fold_skip_empty k n cs acc :
  fold_left (norm_step k) (repeat [] n ++ cs)%list acc
  = fold_left (norm_step k) cs acc.
Proof.
  induction n as [|n IH]; simpl; [reflexivity|]. exact IH.
Qed.

(** *** [normpath] on its own result *)

Lemma initial_slashes_le_2 p : initial_slashes p <= 2.
Proof.
  unfold initial_slashes.
  repeat match goal with |- context [if ?b then _ else _] => destruct b end;
    lia.
Qed.

Lemma initial_slashes_cons_sep r : 1 <= initial_slashes (sep :: r).
Proof.
  unfold initial_slashes.
  replace (startswith (sep :: r) [sep]) with true by reflexivity.
  match goal with |- context [if ?b then _ else _] => destruct b end; lia.
Qed.

Lemma split_leading_seps k s :
  split sep (repeat sep k ++ s)%list = (repeat [] k ++ split sep s)%list.
Proof.
  induction k as [|k IH]; [reflexivity|].
  simpl repeat. cbn [app split]. rewrite Ascii.eqb_refl, IH. reflexivity.
Qed.

Lemma join_head_not_sep cs :
  Forall (fun w => w <> [] /\ w <> dot) cs ->
  Forall (fun w => ~ In sep w) cs ->
  join_with sep cs = [] /\ cs = []
  \/ exists c r, join_with sep cs = c :: r /\ c <> sep.
Proof.
  intros Hp Hs. destruct cs as [|w ws]; [now left|]. right.
  inversion Hp as [|? ? [Hw _] _]; inversion Hs as [|? ? Hn _]; subst.
  destruct w as [|c w']; [congruence|].
  exists c. destruct ws as [|w2 ws2].
  - exists w'. split; [reflexivity|]. intros ->. apply Hn. now left.
  - eexists. split; [reflexivity|]. intros ->. apply Hn. now left.
Qed.

Lemma initial_slashes_rebuilt k j :
  k <= 2 ->
  (j = [] \/ exists c r, j = c :: r /\ c <> sep) ->
  (repeat sep k ++ j)%list <> [] ->
  initial_slashes (repeat sep k ++ j) = k.
Proof.
  intros Hk Hj Hne.
  destruct k as [|[|[|k]]]; [| | |lia]; cbn [repeat app] in *;
    (destruct Hj as [->|(c & r & -> & Hc)]; [try congruence|]);
    unfold initial_slashes, startswith, str_eqb; simpl;
    repeat (case_bool_decide; simpl); simplify_eq; done.
Qed.

Lemma normpath_cons c p :
  normpath (c :: p)
  = or_dot (repeat sep (initial_slashes (c :: p))
            ++ join_with sep
                 (fold_left (norm_step (initial_slashes (c :: p)))
                            (split sep (c :: p)) []))%list.
Proof. reflexivity. Qed.

Lemma normpath_idempotent p : normpath (normpath p) = normpath p.
Proof.
  destruct p as [|c0 p0]; [reflexivity|].
  rewrite normpath_cons.
  set (k := initial_slashes (c0 :: p0)).
  set (cs := fold_left (norm_step k) (split sep (c0 :: p0)) []).
  assert (Hk : k <= 2) by apply initial_slashes_le_2.
  assert (Hp : Forall (fun w => w <> [] /\ w <> dot) cs)
    by (apply norm_fold_proper; constructor).
  assert (Hs : Forall (fun w => ~ In sep w) cs)
    by (apply norm_fold_Forall; [constructor|apply split_no_sep]).
  assert (Hst : fold_left (norm_step k) cs [] = cs)
    by (apply stable_fold; reflexivity).
  destruct (repeat sep k ++ join_with sep cs)%list as [|c q] eqn:Eq;
    [reflexivity|].
  cbn [or_dot]. rewrite normpath_cons, <- Eq.
  assert (Hj := join_head_not_sep cs Hp Hs).
  rewrite initial_slashes_rebuilt; [|exact Hk| |rewrite Eq; discriminate].
  2:{ destruct Hj as [[-> _]|Hj]; [now left|now right]. }
  rewrite split_leading_seps, norm_fold_skip_empty.
  destruct Hj as [[Ej _]|(c' & r' & Ej & Hc')].
  - rewrite Ej in *. cbn [split fold_left]. rewrite norm_step_nil.
    cbn [join_with]. rewrite Eq. reflexivity.
  - rewrite split_join; [|intros ->; discriminate|exact Hs].
    rewrite Hst, Eq. reflexivity.
Qed.

Lemma normpath_Forall (P : ascii -> Prop) p :
  P sep -> P "."%char -> Forall P p -> Forall P (normpath p).
Proof.
  intros Hsep Hdot Hp. destruct p as [|c0 p0]; [repeat constructor; exact Hdot|].
  rewrite normpath_cons.
  match goal with |- Forall P (or_dot ?q) =>
    assert (Hq : Forall P q); [|destruct q; [repeat constructor; exact Hdot|exact Hq]]
  end.
  apply Forall_app. split.
  - generalize (initial_slashes (c0 :: p0)). intros n.
    induction n; simpl; constructor; auto.
  - apply join_with_Forall; [exact Hsep|].
    apply norm_fold_Forall; [constructor|]. now apply split_Forall.
Qed.

Lemma normpath_absolute r : exists r', normpath (sep :: r) = sep :: r'.
Proof.
  rewrite normpath_cons.
  pose proof (initial_slashes_cons_sep r) as Hk.
  destruct (initial_slashes (sep :: r)) as [|k]; [lia|].
  simpl repeat. cbn [app or_dot]. eauto.
Qed.

Lemma replace_backslash_id s :
  ~ In "\"%char s -> replace_backslash s = s.
Proof.
  induction s as [|c s IH]; intros Hn; [reflexivity|].
  simpl. destruct (Ascii.eqb_spec c "\"%char) as [->|Hc].
  - exfalso. apply Hn. now left.
  - f_equal. apply IH. intros H. apply Hn. now right.
Qed.

Lemma normpath_no_backslash p :
  ~ In "\"%char p -> ~ In "\"%char (normpath p).
Proof.
  intros Hn.
  assert (H : Forall (fun c => c <> "\"%char) (normpath p)).
  { apply normpath_Forall; [discriminate..|].
    apply List.Forall_forall. intros c Hc ->. auto. }
  intros Hin. rewrite List.Forall_forall in H. now apply (H _ Hin).
Qed.

(** Without a prefix to add, and without a backslash to turn into a
    separator, [normalize_path] is [normpath]. *)
Lemma normalize_path_is_normpath (prefix p : string) :
  prefix = "" \/ (exists r, of_string p = sep :: r) ->
  ~ In "\"%char (of_string p) ->
  normalize_path prefix p = to_string (normpath (of_string p)).
Proof.
  intros Hcase Hbs. unfold normalize_path.
  rewrite replace_backslash_id.
  - destruct (String.eqb_spec prefix "") as [->|Hne]; [reflexivity|].
    destruct Hcase as [->|(r & ->)]; [congruence|].
    destruct (normpath_absolute r) as (r' & ->). reflexivity.
  - destruct (String.eqb_spec prefix "") as [->|Hne]; simpl;
      [now apply normpath_no_backslash|].
    destruct Hcase as [->|(r & Hr)]; [congruence|].
    rewrite Hr in *. destruct (normpath_absolute r) as (r' & Hr').
    unfold join. rewrite Hr'.
    replace (startswith (sep :: r') [sep]) with true by reflexivity.
    rewrite <- Hr'. now apply normpath_no_backslash.
Qed.

(** C3, as the code has it.  [normalize_path] prepends the prefix at
    every call, and turns backslashes into separators only after
    [normpath] has run.  It is idempotent on the paths for which neither
    matters: no prefix is configured or the path is absolute (then
    [os.path.join] drops the prefix), and the path has no backslash. *)
Theorem C3_normalize_path_idempotent_without_prefix (prefix p : string) :
  prefix = "" \/ (exists r, p = String "/" r) ->
  ~ In "\"%char (list_ascii_of_string p) ->
  normalize_path prefix (normalize_path prefix p) = normalize_path prefix p.
Proof.
  intros Hcase Hbs.
  assert (Hcase' : prefix = "" \/ exists r, of_string p = sep :: r).
  { destruct Hcase as [->|(r & ->)]; [now left|right].
    exists (list_ascii_of_string r). reflexivity. }
  rewrite (normalize_path_is_normpath prefix p Hcase' Hbs).
  rewrite normalize_path_is_normpath.
  - unfold of_string, to_string.
    rewrite list_ascii_of_string_of_list_ascii.
    now rewrite normpath_idempotent.
  - destruct Hcase' as [->|(r & Hr)]; [now left|right].
    unfold of_string at 1, to_string.
    rewrite list_ascii_of_string_of_list_ascii, Hr.
    apply normpath_absolute.
  - unfold of_string at 1, to_string.
    rewrite list_ascii_of_string_of_list_ascii.
    now apply normpath_no_backslash.
Qed.

(** C3 without prefix on [a/../b/./c], and with the prefix [pre] on an
    absolute path. *)
Lemma C3_witness :
  normalize_path "" (normalize_path "" "a/../b/./c") = "b/c"
  /\ normalize_path "pre" (normalize_path "pre" "/x//y/") = "/x/y".
Proof.
  split.
  - rewrite (C3_normalize_path_idempotent_without_prefix "" "a/../b/./c").
    + reflexivity.
    + left. reflexivity.
    + vm_compute. intuition discriminate.
  - rewrite (C3_normalize_path_idempotent_without_prefix "pre" "/x//y/").
    + reflexivity.
    + right. eexists. reflexivity.
    + vm_compute. intuition discriminate.
Defined.

(** C3 as stated fails with a prefix: [-p pre] and the path [a]. *)
Lemma C3_counterexample :
  normalize_path "pre" "a" = "pre/a"
  /\ normalize_path "pre" (normalize_path "pre" "a") = "pre/pre/a"
  /\ normalize_path "pre" (normalize_path "pre" "a")
     <> normalize_path "pre" "a".
Proof. repeat split. vm_compute. discriminate. Qed.

(** Without a prefix, a backslash in a name is enough: the first pass
    makes a separator of it, the second collapses the [..] it uncovers. *)
Lemma normalize_path_backslash_not_idempotent :
  normalize_path "" "a\..\b" = "a/../b"
  /\ normalize_path "" (normalize_path "" "a\..\b") = "b".
Proof. split; reflexivity. Qed.

(** *** The loop over the input files *)

Lemma for_each_app {A} (body : A -> M unit) l1 l2 st :
  for_each body (l1 ++ l2) st
  = match for_each body l1 st with
    | (st1, Next _) => for_each body l2 st1
    | (st1, Stop h) => (st1, Stop h)
    end.
Proof.
  revert st. induction l1 as [|x r IH]; intros st; simpl; [reflexivity|].
  unfold bind. destruct (body x st) as [st1 [[]|h]]; [apply IH|reflexivity].
Qed.

Lemma for_each_map {A B} (f : A -> B) (body : B -> M unit) l st :
  for_each body (map f l) st = for_each (fun x => body (f x)) l st.
Proof.
  revert st. induction l as [|x r IH]; intros st; simpl; [reflexivity|].
  unfold bind. destruct (body (f x) st) as [st1 [[]|h]]; [apply IH|reflexivity].
Qed.

Lemma for_each_flat_map {A B} (g : A -> list B) (body : B -> M unit) l st :
  for_each body (flat_map g l) st
  = for_each (fun x => for_each body (g x)) l st.
Proof.
  revert st. induction l as [|x r IH]; intros st; simpl; [reflexivity|].
  rewrite for_each_app. unfold bind.
  destruct (for_each body (g x) st) as [st1 [[]|h]]; [apply IH|reflexivity].
Qed.

Lemma for_each_ext {A} (body body' : A -> M unit) l st :
  (forall x s, body x s = body' x s) ->
  for_each body l st = for_each body' l st.
Proof.
  intros Hext. revert st.
  induction l as [|x r IH]; intros st; simpl; [reflexivity|].
  unfold bind. rewrite Hext.
  destruct (body' x st) as [st1 [[]|h]]; [apply IH|reflexivity].
Qed.

Section Archiver.

Variable prefix : string.
Variable compress : Z.
Variable no_compress : list string.
Variable read_file : string -> option (list Byte.byte).
Variable isdir : string -> bool.
Variable walk : string -> list (string * list string).
Variable lz4_compress : Z -> list Byte.byte -> list Byte.byte.

#[local] Abbreviation process_file :=
  (process_file prefix compress no_compress read_file lz4_compress).
#[local] Abbreviation process_input :=
  (process_input prefix compress no_compress read_file isdir walk lz4_compress).
#[local] Abbreviation main :=
  (main prefix compress no_compress read_file isdir walk lz4_compress).
#[local] Abbreviation stored := (stored prefix).
#[local] Abbreviation compressed := (compressed prefix compress lz4_compress).
#[local] Abbreviation member := (member prefix compress no_compress lz4_compress).
#[local] Abbreviation archivable :=
  (archivable prefix compress no_compress read_file lz4_compress).
#[local] Abbreviation members :=
  (members prefix compress no_compress read_file lz4_compress).
#[local] Abbreviation input_files := (input_files isdir walk).

Lemma existsb_eqb_In (x : string) (l : list string) :
  In x l -> existsb (String.eqb x) l = true.
Proof.
  intros Hin. apply existsb_exists. exists x. split; [exact Hin|].
  apply String.eqb_refl.
Qed.

Lemma existsb_eqb_not_In (x : string) (l : list string) :
  ~ In x l -> existsb (String.eqb x) l = false.
Proof.
  intros Hn. destruct (existsb (String.eqb x) l) eqn:E; [|reflexivity].
  apply existsb_exists in E as (y & Hy & Heq).
  apply String.eqb_eq in Heq as ->. contradiction.
Qed.

Lemma string_length_app (s t : string) :
  String.length (s ++ t) = String.length s + String.length t.
Proof. induction s as [|c s IH]; simpl; [reflexivity | now rewrite IH]. Qed.

Lemma append_lz4_neq (s : string) : (s ++ ".lz4")%string <> s.
Proof.
  intros H. apply (f_equal String.length) in H.
  rewrite string_length_app in H. simpl in H. lia.
Qed.

(** The member of a file is the file as it is at level 0 or with an
    exempt extension, and the file compressed otherwise. *)
Lemma member_stored path contents :
  compress = 0%Z
  \/ In (to_string (extension_of (of_string path))) no_compress ->
  member path contents = stored path contents.
Proof.
  intros Hcase. unfold Lz4Tar.member.
  destruct Hcase as [-> | Hin]; [reflexivity|].
  rewrite (existsb_eqb_In _ _ Hin). now rewrite andb_false_r.
Qed.

Lemma member_compressed path contents :
  compress <> 0%Z ->
  ~ In (to_string (extension_of (of_string path))) no_compress ->
  member path contents = compressed path contents.
Proof.
  intros Hc Hext. unfold Lz4Tar.member.
  rewrite (existsb_eqb_not_In _ _ Hext).
  apply Z.eqb_neq in Hc. now rewrite Hc.
Qed.

Lemma member_size path contents :
  entry_size (member path contents)
  = Z.of_nat (length (entry_payload (member path contents))).
Proof. unfold Lz4Tar.member. now destruct (_ && _). Qed.

(** Lines 54-76 on a file that is read: both totals are advanced, then
    the member is appended, or refused with [ValueError]. *)
Lemma process_file_read path contents st :
  read_file path = Some contents ->
  process_file path st
  = if accepted (member path contents)
    then (mkState (original_size st + size_of contents)
                  (compressed_size st + entry_size (member path contents))
                  (tar st ++ [member path contents])
                  (stdout st ++ [PathLine (normalize_path prefix path)]),
          Next tt)
    else (mkState (original_size st + size_of contents)
                  (compressed_size st + entry_size (member path contents))
                  (tar st)
                  (stdout st ++ [PathLine (normalize_path prefix path)]),
          Stop (Uncaught ValueError)).
Proof.
  intros Hread.
  unfold Lz4Tar.process_file, Lz4Tar.member, accepted, addfile, bind, print,
    modify, stop.
  rewrite Hread.
  destruct (negb (compress =? 0)%Z && _); simpl;
    destruct (ustar_fits _ _); reflexivity.
Qed.

(** C4.  A file that is read, when the level is 0 or the extension
    [splitext] computes for it is in the no-compress list, is stored
    unmodified: the member handed to the archive carries the bytes read,
    its size is their number, and its name is the normalized path with no
    [.lz4] appended.  It is the only member the file can add: the archive
    appends it, or refuses it with [ValueError] when its name or its size
    does not fit the header, and both totals have grown by the bytes read
    either way. *)
Theorem C4_uncompressed_entry_is_verbatim (path : string)
    (contents : list Byte.byte) (st : state) :
  read_file path = Some contents ->
  compress = 0%Z
  \/ In (to_string (extension_of (of_string path))) no_compress ->
  exists st',
    process_file path st
    = (st', if accepted (stored path contents) then Next tt
            else Stop (Uncaught ValueError))
    /\ tar st' = (if accepted (stored path contents)
                  then tar st ++ [stored path contents]
                  else tar st)
    /\ entry_payload (stored path contents) = contents
    /\ entry_size (stored path contents) = Z.of_nat (length contents)
    /\ entry_name (stored path contents) = normalize_path prefix path
    /\ entry_name (stored path contents)
       <> (normalize_path prefix path ++ ".lz4")%string
    /\ original_size st' = (original_size st + Z.of_nat (length contents))%Z
    /\ compressed_size st'
       = (compressed_size st + Z.of_nat (length contents))%Z.
Proof.
  intros Hread Hcase.
  rewrite (process_file_read path contents st Hread).
  rewrite (member_stored path contents Hcase).
  destruct (accepted (stored path contents)); eexists;
    (split; [reflexivity|]); repeat split; try reflexivity;
    intros H; symmetry in H; exact (append_lz4_neq _ H).
Qed.

(** The nested loops of lines 79-88 visit the files of the inputs one
    after the other. *)
Lemma process_inputs_flat inputs st :
  for_each process_input inputs st
  = for_each process_file (flat_map input_files inputs) st.
Proof.
  rewrite for_each_flat_map. apply for_each_ext. intros input s.
  unfold Lz4Tar.process_input, Lz4Tar.input_files.
  destruct (isdir input).
  - rewrite for_each_flat_map. apply for_each_ext. intros [dirpath names] s'.
    now rewrite for_each_map.
  - simpl. unfold bind.
    now destruct (process_file input s) as [s1 [[]|h]].
Qed.

Lemma process_file_unreadable path st :
  read_file path = None ->
  exists st',
    process_file path st = (st', Stop (SysExit 1))
    /\ tar st' = tar st
    /\ compressed_size st' = compressed_size st
    /\ stdout st'
       = stdout st ++ [PathLine (normalize_path prefix path); CannotRead path].
Proof.
  intros Hread. unfold Lz4Tar.process_file, bind, print, modify, stop.
  rewrite Hread. simpl. eexists. repeat split.
  now rewrite <- app_assoc.
Qed.

Lemma total_size_app l l' :
  total_size (l ++ l') = (total_size l + total_size l')%Z.
Proof.
  unfold total_size. induction l as [|x l IH]; simpl; [reflexivity|].
  rewrite IH. lia.
Qed.

Lemma members_app l l' : members (l ++ l') = members l ++ members l'.
Proof. unfold Lz4Tar.members. apply flat_map_app. Qed.

Lemma members_archivable files :
  Forall (fun path => archivable path = true) files ->
  Forall2 (fun path e =>
             exists contents,
               read_file path = Some contents
               /\ e = member path contents
               /\ accepted e = true)
          files (members files).
Proof.
  induction 1 as [|path rest Hpath _ IH]; simpl; [constructor|].
  unfold Lz4Tar.archivable in Hpath.
  destruct (read_file path) as [contents|] eqn:Hread; [|discriminate].
  simpl. constructor; [|exact IH]. exists contents. auto.
Qed.

(** Files that can be read and whose members the archive takes are all
    archived, one member each and in their order. *)
Lemma process_files_archivable files st :
  Forall (fun path => archivable path = true) files ->
  exists st',
    for_each process_file files st = (st', Next tt)
    /\ tar st' = tar st ++ members files
    /\ compressed_size st'
       = (compressed_size st + total_size (members files))%Z.
Proof.
  intros Hall. revert st.
  induction Hall as [|path rest Hpath _ IH]; intros st; simpl.
  - exists st. rewrite app_nil_r. repeat split. unfold total_size. simpl. lia.
  - unfold Lz4Tar.archivable in Hpath.
    destruct (read_file path) as [contents|] eqn:Hread; [|discriminate].
    unfold bind. rewrite (process_file_read path contents st Hread), Hpath.
    destruct (IH (mkState (original_size st + size_of contents)
                    (compressed_size st + entry_size (member path contents))
                    (tar st ++ [member path contents])
                    (stdout st ++ [PathLine (normalize_path prefix path)])))
      as (st' & Hrest & Htar & Hsize).
    exists st'. split; [exact Hrest|]. simpl in Htar, Hsize. split.
    + rewrite Htar, <- app_assoc. reflexivity.
    + rewrite Hsize. unfold total_size. simpl. lia.
Qed.

(** X4.  The first file that cannot be read ends the run with status 1.  When
    the files before it can be read and the archive takes their members,
    the archive holds exactly those members, in their order; the files
    after it are not looked at. *)
Lemma main_stops_at_unreadable_file inputs before bad after :
  flat_map input_files inputs = before ++ bad :: after ->
  Forall (fun path => archivable path = true) before ->
  read_file bad = None ->
  exit_status (main inputs) = 1%Z
  /\ (main inputs).2 = Stop (SysExit 1)
  /\ tar (main inputs).1 = members before
  /\ Forall2 (fun path e =>
                exists contents,
                  read_file path = Some contents
                  /\ e = member path contents
                  /\ accepted e = true)
             before (tar (main inputs).1)
  /\ List.last (stdout (main inputs).1) (CannotRead "") = CannotRead bad.
Proof.
  intros Hfiles Hbefore Hbad.
  destruct (process_files_archivable before initial_state Hbefore)
    as (st1 & Hrun1 & Htar1 & _).
  destruct (process_file_unreadable bad st1 Hbad)
    as (st' & Hrun & Htar & _ & Hout).
  assert (Hmain : main inputs = (st', Stop (SysExit 1))).
  { unfold Lz4Tar.main. unfold bind at 1.
    rewrite process_inputs_flat, Hfiles, for_each_app, Hrun1.
    simpl. unfold bind. now rewrite Hrun. }
  unfold exit_status. rewrite Hmain. simpl.
  assert (Hmembers : tar st' = members before).
  { now rewrite Htar, Htar1. }
  repeat split.
  - exact Hmembers.
  - rewrite Hmembers. now apply members_archivable.
  - rewrite Hout.
    change [PathLine (normalize_path prefix bad); CannotRead bad]
      with ([PathLine (normalize_path prefix bad)] ++ [CannotRead bad]).
    now rewrite app_assoc, last_last.
Qed.

(** X5.  When every file can be read and the archive takes every member, the
    run ends with status 0 and the archive holds exactly the members of
    the files, unless the summary divides by zero: compression is
    requested and the members are all empty. *)
Lemma main_succeeds_when_files_archivable inputs :
  Forall (fun path => archivable path = true) (flat_map input_files inputs) ->
  compress = 0%Z
  \/ total_size (members (flat_map input_files inputs)) <> 0%Z ->
  exit_status (main inputs) = 0%Z
  /\ (main inputs).2 = Next tt
  /\ tar (main inputs).1 = members (flat_map input_files inputs).
Proof.
  intros Hall Hstat.
  destruct (process_files_archivable _ initial_state Hall)
    as (st1 & Hrun & Htar & Hsize).
  simpl in Htar, Hsize.
  assert (Hmain : exists st', main inputs = (st', Next tt) /\ tar st' = tar st1).
  { unfold Lz4Tar.main. unfold bind at 1.
    rewrite process_inputs_flat, Hrun. unfold Lz4Tar.statistics.
    destruct (compress =? 0)%Z eqn:Ec; simpl; [eauto|].
    destruct (compressed_size st1 =? 0)%Z eqn:E.
    - apply Z.eqb_eq in E. apply Z.eqb_neq in Ec.
      destruct Hstat; [contradiction|]. rewrite Hsize in E. contradiction.
    - unfold print, modify. simpl. eauto. }
  destruct Hmain as (st' & Hmain & Htar').
  unfold exit_status. rewrite Hmain. simpl. repeat split.
  now rewrite Htar', Htar.
Qed.

(** C10.  With compression requested and no input at all, the summary
    divides by a compressed total of 0: the script ends in an uncaught
    [ZeroDivisionError] and has printed nothing. *)
Theorem C10_empty_inputs_divide_by_zero :
  compress <> 0%Z ->
  main [] = (initial_state, Stop (Uncaught ZeroDivisionError))
  /\ stdout (main []).1 = [].
Proof.
  intros Hc. unfold Lz4Tar.main, statistics, bind. cbn.
  destruct (compress =? 0)%Z eqn:E.
  - apply Z.eqb_eq in E. contradiction.
  - cbn. split; reflexivity.
Qed.

End Archiver.

(** C4 on a PNG file exempt from compression at level 5. *)
Lemma C4_witness :
  exists st',
    process_file "pre" 5 [".png"] (fun _ => Some [Byte.x01; Byte.x02])
                 (fun _ c => c) "a/./tex.png" initial_state = (st', Next tt)
    /\ tar st' = [mkEntry "pre/a/tex.png" 2 [Byte.x01; Byte.x02]].
Proof.
  destruct (C4_uncompressed_entry_is_verbatim
              "pre" 5 [".png"] (fun _ => Some [Byte.x01; Byte.x02])
              (fun _ c => c) "a/./tex.png" [Byte.x01; Byte.x02]
              initial_state)
    as (st' & Hrun & Htar & _).
  - reflexivity.
  - right. vm_compute. left. reflexivity.
  - exists st'. split; [exact Hrun|]. rewrite Htar. reflexivity.
Defined.

(** C10 at level 3. *)
Lemma C10_witness :
  main "" 3 [] (fun _ => None) (fun _ => false) (fun _ => []) (fun _ c => c) []
  = (initial_state, Stop (Uncaught ZeroDivisionError)).
Proof.
  apply (C10_empty_inputs_divide_by_zero
           "" 3 [] (fun _ => None) (fun _ => false) (fun _ => [])
           (fun _ c => c)).
  lia.
Defined.

(** C8, at inputs where the code departs from it.  The claim has the
    script end with status 0 whenever every input file can be read.
    With compression requested and no input at all, or with one empty
    file whose extension is exempt from compression, every file is read
    and the process ends with status 1: when the archive path of the
    empty file fits the header the file is archived, the compressed
    total is 0 and the summary raises [ZeroDivisionError]. *)
Theorem C8_status_1_without_unreadable_file
    (prefix : string) (no_compress : list string)
    (read_file : string -> option (list Byte.byte))
    (isdir : string -> bool) (walk : string -> list (string * list string))
    (lz4_compress : Z -> list Byte.byte -> list Byte.byte) :
  exit_status
    (main prefix 1 no_compress read_file isdir walk lz4_compress [])
  = 1%Z
  /\ (main prefix 1 no_compress read_file isdir walk lz4_compress []).2
     = Stop (Uncaught ZeroDivisionError)
  /\ exit_status
       (main prefix 1 [".txt"] (fun _ => Some []) (fun _ => false) walk
             lz4_compress ["empty.txt"])
     = 1%Z
  /\ (ustar_fits (normalize_path prefix "empty.txt") 0 = true ->
      main prefix 1 [".txt"] (fun _ => Some []) (fun _ => false) walk
           lz4_compress ["empty.txt"]
      = (mkState 0 0 [mkEntry (normalize_path prefix "empty.txt") 0 []]
                 [PathLine (normalize_path prefix "empty.txt")],
         Stop (Uncaught ZeroDivisionError)))
  /\ main "" 1 [".txt"] (fun _ => Some []) (fun _ => false) walk
          lz4_compress ["empty.txt"]
     = (mkState 0 0 [mkEntry "empty.txt" 0 []] [PathLine "empty.txt"],
        Stop (Uncaught ZeroDivisionError)).
Proof.
  pose proof (process_file_read prefix 1 [".txt"] (fun _ => Some [])
                lz4_compress "empty.txt" [] initial_state eq_refl) as Hrun.
  rewrite (member_stored prefix 1 [".txt"] lz4_compress "empty.txt" [])
    in Hrun by (right; vm_compute; left; reflexivity).
  change (accepted (stored prefix "empty.txt" []))
    with (ustar_fits (normalize_path prefix "empty.txt") 0) in Hrun.
  split; [reflexivity|]. split; [reflexivity|]. split; [|split].
  - unfold exit_status, Lz4Tar.main, bind, Lz4Tar.process_input.
    cbn [for_each]. unfold bind. rewrite Hrun.
    destruct (ustar_fits (normalize_path prefix "empty.txt") 0); reflexivity.
  - intros Hfits. rewrite Hfits in Hrun.
    unfold Lz4Tar.main, bind, Lz4Tar.process_input. cbn [for_each].
    unfold bind. rewrite Hrun. reflexivity.
  - reflexivity.
Qed.

(** C8 on the empty file without prefix. *)
Lemma C8_witness :
  main "" 1 [".txt"] (fun _ => Some []) (fun _ => false) (fun _ => [])
       (fun _ c => c) ["empty.txt"]
  = (mkState 0 0 [mkEntry "empty.txt" 0 []] [PathLine "empty.txt"],
     Stop (Uncaught ZeroDivisionError)).
Proof.
  apply (proj1 (proj2 (proj2 (proj2
           (C8_status_1_without_unreadable_file
              "" [] (fun _ => None) (fun _ => false) (fun _ => [])
              (fun _ c => c)))))).
  reflexivity.
Defined.

End Lz4TarProofs.

(** * Properties of [mat_to_gltf.py] *)
Module MatToGltfProofs.
Import MatToGltf.
#[local] Open Scope list_scope.

(** *** Sequencing *)

Lemma bind_Ok {A B} (m : M A) (k : A -> M B) st st' b :
  bind m k st = (st', Ok b) ->
  exists a st1, m st = (st1, Ok a) /\ k a st1 = (st', Ok b).
Proof.
  unfold bind. destruct (m st) as [st1 [a|e]]; [eauto|discriminate].
Qed.

Lemma lift_Ok {A} (r : result A) st st' a :
  lift r st = (st', Ok a) -> r = Ok a /\ st' = st.
Proof. unfold lift. intros [= -> ->]. auto. Qed.

Lemma rbind_Ok {A B} (r : result A) (k : A -> result B) b :
  rbind r k = Ok b -> exists a, r = Ok a /\ k a = Ok b.
Proof. destruct r; simpl; [eauto|discriminate]. Qed.

(** C1, at the input of the example.  The metallic factor is summed
    channel by channel; on the green channel the specular and the
    diffuse color are both 0, the quotient [0 / (0 + 0)] raises
    [ZeroDivisionError], and the script ends there without writing a
    document.  Up to that point the node is what the example says:
    [MASK], double sided, base color [1, 0, 0, 1.0]; the red channel
    has added [0 / (0 + 1)], the float 0.0, to the metallic factor; the
    roughness [1.0 - 0.5] that line 178 would store is 0.5. *)
Theorem C1_example_raises_ZeroDivisionError (path_exists : string -> bool) :
  merge path_exists false {[ "M1" := M1_definition ]}
        (scene_of [obj [("name", JStr "M1")]])
  = Raise ZeroDivisionError
  /\ alpha_mode M1_definition {[ "name" := JStr "M1" ]}
     = Ok (<[ "doubleSided" := JBool true ]>
             (<[ "alphaMode" := JStr "MASK" ]> {[ "name" := JStr "M1" ]}))
  /\ (diffuse_factor "M1" M1_definition "baseColorFactor" ∅
        (initial_state {[ "M1" := M1_definition ]} (scene_of []))).2
     = Ok {[ "baseColorFactor" := JArr [JInt 1; JInt 0; JInt 0; JFloat 1] ]}
  /\ (metallic_channel (JArr [JInt 0; JInt 0; JInt 0]) (JInt 0) 0
        (set_diffuseFactor (Some (JArr [JInt 1; JInt 0; JInt 0; JFloat 1]))
           (initial_state ∅ (scene_of [])))).2
     = Ok (JFloat 0)
  /\ (metallic_channel (JArr [JInt 0; JInt 0; JInt 0]) (JFloat 0) 1
        (set_diffuseFactor (Some (JArr [JInt 1; JInt 0; JInt 0; JFloat 1]))
           (initial_state ∅ (scene_of [])))).2
     = Raise ZeroDivisionError
  /\ py_sub (JFloat 1) (JFloat 0.5) = Ok (JFloat 0.5).
Proof. repeat split; vm_compute; reflexivity. Qed.

(** *** Properties of the state kept by every step *)

Section Preserves.

Context {A B : Type} (I : state -> Prop).

Lemma preserves_ret (a : A) : preserves I (ret a).
Proof. intros st H. exact H. Qed.

Lemma preserves_raise (e : exn) : preserves I (@raise A e).
Proof. intros st H. exact H. Qed.

Lemma preserves_lift (r : result A) : preserves I (lift r).
Proof. intros st H. exact H. Qed.

Lemma preserves_gets (f : state -> A) : preserves I (gets f).
Proof. intros st H. exact H. Qed.

Lemma preserves_modify (f : state -> state) :
  (forall st, I st -> I (f st)) -> preserves I (modify f).
Proof. intros Hf st H. apply Hf, H. Qed.

Lemma preserves_bind (m : M A) (k : A -> M B) :
  preserves I m -> (forall a, preserves I (k a)) -> preserves I (bind m k).
Proof.
  intros Hm Hk st H. unfold bind.
  specialize (Hm st H). destruct (m st) as [st1 [a|e]]; simpl in *.
  - apply Hk, Hm.
  - exact Hm.
Qed.

End Preserves.

Ltac preserves_step :=
  first
    [ apply preserves_ret
    | apply preserves_raise
    | apply preserves_lift
    | apply preserves_gets
    | apply preserves_bind; [|intros ?]
    | match goal with
      | |- preserves _ (if ?b then _ else _) => destruct b
      | |- preserves _ (match ?x with _ => _ end) => destruct x
      | |- preserves _ (let '(_, _) := ?x in _) => destruct x
      end ].

(** [add_image] changes nothing but the image list. *)
Lemma add_image_preserves (I : state -> Prop) path :
  (forall l st, I st -> I (set_images l st)) ->
  preserves I (add_image path).
Proof.
  intros HI. unfold add_image.
  repeat first [ apply preserves_modify; intros; apply HI; assumption
               | preserves_step ].
Qed.

Section Frame.

Variable path_exists : string -> bool.
Variable spec_gloss : bool.

(** A property of the state that [add_image] keeps and that does not
    look at the other variables. *)
Variable I : state -> Prop.
Hypothesis I_add_image : forall path, preserves I (add_image path).
Hypothesis I_textures : forall l st, I st -> I (set_textures l st).
Hypothesis I_anyDds : forall b st, I st -> I (set_anyDdsTextures b st).
Hypothesis I_print : forall line, preserves I (print line).
Hypothesis I_diffuseFactor : forall v st, I st -> I (set_diffuseFactor v st).
Hypothesis I_mat : forall m st, I st -> I (set_mat m st).
Hypothesis I_newmatlist : forall l st, I st -> I (set_newmatlist l st).

Lemma texture_images_preserves path :
  preserves I (texture_images path_exists path).
Proof.
  unfold texture_images.
  repeat first [ apply I_add_image | apply I_print
               | apply preserves_modify; intros; apply I_anyDds; assumption
               | preserves_step ].
Qed.

Lemma add_texture_preserves v : preserves I (add_texture path_exists v).
Proof.
  unfold add_texture.
  repeat first [ apply texture_images_preserves
               | apply preserves_modify; intros; apply I_textures; assumption
               | preserves_step ].
Qed.

Lemma texture_slot_preserves texdefs slot key target :
  preserves I (texture_slot path_exists texdefs slot key target).
Proof.
  unfold texture_slot.
  repeat first [ apply add_texture_preserves | preserves_step ].
Qed.

Lemma texture_slots_preserves matdef node block :
  preserves I (texture_slots path_exists spec_gloss matdef node block).
Proof.
  unfold texture_slots.
  repeat first [ apply texture_slot_preserves | preserves_step ].
Qed.

Lemma metallic_channel_preserves s m i :
  preserves I (metallic_channel s m i).
Proof. unfold metallic_channel. repeat preserves_step. Qed.

Lemma metallic_roughness_preserves matdef block :
  preserves I (metallic_roughness matdef block).
Proof.
  unfold metallic_roughness.
  repeat first [ apply metallic_channel_preserves | preserves_step ].
Qed.

Lemma diffuse_factor_preserves name matdef key block :
  preserves I (diffuse_factor name matdef key block).
Proof.
  unfold diffuse_factor.
  repeat first
    [ apply preserves_modify; intros;
      first [ apply I_diffuseFactor | apply I_mat ]; assumption
    | preserves_step ].
Qed.

Lemma factors_preserves name matdef block d s :
  preserves I (factors spec_gloss name matdef block d s).
Proof.
  unfold factors.
  repeat first [ apply diffuse_factor_preserves
               | apply metallic_roughness_preserves
               | preserves_step ].
Qed.

Lemma rewrite_matnode_preserves name matdef :
  preserves I (rewrite_matnode path_exists spec_gloss name matdef).
Proof.
  unfold rewrite_matnode.
  repeat first [ apply texture_slots_preserves
               | apply factors_preserves
               | apply preserves_modify; intros; apply I_newmatlist; assumption
               | preserves_step ].
Qed.

Lemma process_matnode_preserves matnode :
  preserves I (process_matnode path_exists spec_gloss matnode).
Proof.
  unfold process_matnode, warn_missing, passthrough.
  apply preserves_bind; [apply preserves_gets|intros m].
  destruct (lookup_matdef m matnode) as [[name matdef]|e].
  - apply rewrite_matnode_preserves.
  - destruct e;
      repeat first [ apply I_print
                   | apply preserves_modify; intros; apply I_newmatlist;
                     assumption
                   | preserves_step ].
Qed.

Lemma material_loop_preserves nodes :
  preserves I (material_loop path_exists spec_gloss nodes).
Proof.
  induction nodes as [|matnode rest IH]; simpl.
  - apply preserves_ret.
  - apply preserves_bind; [apply process_matnode_preserves|intros _; exact IH].
Qed.

End Frame.

(** *** [add_image] *)

Lemma eq_str_true v path : eq_str v path = true <-> v = JStr path.
Proof.
  destruct v; simpl; try (split; [discriminate|intros [=]]).
  rewrite String.eqb_eq. split; [now intros ->|now intros [= ->]].
Qed.

Lemma find_image_found_app path imgs extra n i :
  find_image path imgs n = Ok (inl i) ->
  find_image path (imgs ++ extra) n = Ok (inl i).
Proof.
  revert n. induction imgs as [|image rest IH]; intros n; simpl;
    [discriminate|].
  destruct (subscript image "uri") as [uri|e]; simpl; [|discriminate].
  destruct (eq_str uri path); [trivial|apply IH].
Qed.

Lemma find_image_found path imgs n i :
  find_image path imgs n = Ok (inl i) ->
  exists k image,
    i = n + k /\ imgs !! k = Some image
    /\ subscript image "uri" = Ok (JStr path).
Proof.
  revert n. induction imgs as [|image rest IH]; intros n; simpl;
    [discriminate|].
  destruct (subscript image "uri") as [uri|e] eqn:Euri; simpl; [|discriminate].
  destruct (eq_str uri path) eqn:Eeq.
  - intros [= <-]. exists 0, image. apply eq_str_true in Eeq as ->.
    repeat split; [lia|assumption].
  - intros H. destruct (IH _ H) as (k & image' & -> & Hk & Hu).
    exists (S k), image'. repeat split; [lia|assumption..].
Qed.

Lemma find_image_missing path imgs n m :
  find_image path imgs n = Ok (inr m) ->
  m = n + length imgs
  /\ (JStr path ∉ uris imgs)
  /\ forall extra,
       find_image path (imgs ++ JObj {[ "uri" := JStr path ]} :: extra) n
       = Ok (inl m).
Proof.
  revert n. induction imgs as [|image rest IH]; intros n; simpl.
  - intros [= <-]. split; [lia|]. split; [apply not_elem_of_nil|].
    intros extra. unfold subscript. rewrite lookup_singleton_eq. simpl.
    now rewrite String.eqb_refl.
  - destruct (subscript image "uri") as [uri|e] eqn:Euri; simpl;
      [|discriminate].
    destruct (eq_str uri path) eqn:Eeq; [discriminate|].
    intros H. destruct (IH _ H) as (-> & Hnot & Hext).
    split; [lia|]. split; [|exact Hext].
    unfold uris. simpl. unfold subscript in Euri.
    destruct image as [| | | | | |mobj]; try discriminate.
    destruct (mobj !! "uri") as [v|] eqn:Ev; [|discriminate].
    injection Euri as ->. simpl. intros Hin.
    apply elem_of_cons in Hin as [Hin|Hin]; [|now apply Hnot].
    subst uri. simpl in Eeq. now rewrite String.eqb_refl in Eeq.
Qed.

Lemma uris_app l1 l2 : uris (l1 ++ l2) = uris l1 ++ uris l2.
Proof. unfold uris. apply omap_app. Qed.

Lemma add_image_keeps_uris_distinct path :
  preserves (fun st => NoDup (uris (images st))) (add_image path).
Proof.
  intros st Hnd. unfold add_image, bind, gets, lift, modify, ret. simpl.
  destruct (find_image path (images st) 0) as [[i|m]|e] eqn:Efind;
    simpl; try exact Hnd.
  apply find_image_missing in Efind as (_ & Hnot & _).
  rewrite uris_app. apply NoDup_app. split; [exact Hnd|].
  split.
  - intros x Hx Hin. unfold uris in Hin. simpl in Hin.
    rewrite lookup_singleton_eq in Hin. simpl in Hin.
    apply list_elem_of_singleton in Hin as ->. now apply Hnot.
  - unfold uris. simpl. rewrite lookup_singleton_eq. simpl.
    apply NoDup_singleton.
Qed.

(** X9.  When every entry of the list has a URI, [add_image] returns. *)
Lemma add_image_returns path st :
  Forall (fun image => exists v, subscript image "uri" = Ok v) (images st) ->
  exists st' i, add_image path st = (st', Ok i).
Proof.
  intros Hall. unfold add_image, bind, gets, lift, modify, ret. simpl.
  assert (H : forall n, exists r, find_image path (images st) n = Ok r).
  { induction Hall as [|image rest (v & Hv) _ IH]; intros n; simpl; [eauto|].
    rewrite Hv. simpl. destruct (eq_str v path); [eauto|apply IH]. }
  destruct (H 0) as ([i|m] & ->); simpl; eauto.
Qed.

Lemma add_image_again u st st1 i :
  add_image u st = (st1, Ok i) ->
  forall st2 extra,
    images st2 = images st1 ++ extra -> add_image u st2 = (st2, Ok i).
Proof.
  intros Hadd st2 extra Himgs.
  unfold add_image, bind, gets, lift, modify, ret in *. simpl in *.
  destruct (find_image u (images st) 0) as [[j|m]|e] eqn:Efind;
    simpl in Hadd; [| |discriminate].
  - injection Hadd as <- <-.
    now rewrite Himgs, (find_image_found_app _ _ extra _ _ Efind).
  - injection Hadd as <- <-. simpl in Himgs.
    apply find_image_missing in Efind as (-> & _ & Hext).
    rewrite Himgs, <- app_assoc. simpl. now rewrite Hext.
Qed.

Lemma add_image_state u st st1 i :
  add_image u st = (st1, Ok i) ->
  textures st1 = textures st /\ exists extra, images st1 = images st ++ extra.
Proof.
  unfold add_image, bind, gets, lift, modify, ret. simpl.
  destruct (find_image u (images st) 0) as [[j|m]|e]; simpl;
    [| |discriminate]; intros [= <- <-]; (split; [reflexivity|]).
  - exists []. now rewrite app_nil_r.
  - eexists. reflexivity.
Qed.

Lemma add_image_entry u st st1 i :
  add_image u st = (st1, Ok i) ->
  exists image,
    images st1 !! i = Some image /\ subscript image "uri" = Ok (JStr u).
Proof.
  unfold add_image, bind, gets, lift, modify, ret. simpl.
  destruct (find_image u (images st) 0) as [[j|m]|e] eqn:Efind; simpl;
    [| |discriminate]; intros [= <- <-].
  - apply find_image_found in Efind as (k & image & -> & Hk & Hu). eauto.
  - apply find_image_missing in Efind as (-> & _ & _). simpl.
    eexists. split.
    + rewrite lookup_app_r by lia. rewrite Nat.sub_diag. reflexivity.
    + unfold subscript. now rewrite lookup_singleton_eq.
Qed.

(** C6.  A URI that [add_image] has registered at index [i] is found at
    [i] by every later registration: at once, and after any number of
    other entries were appended; the later registration appends nothing,
    and entry [i] carries the URI.  A registration keeps the URIs of the
    list pairwise distinct, and so does the whole material loop, up to
    its last state, whether it ends normally or in an exception. *)
Theorem C6_add_image_deduplicates_by_uri
    (u : string) (st st1 : state) (i : nat) :
  add_image u st = (st1, Ok i) ->
  add_image u st1 = (st1, Ok i)
  /\ (forall st2 extra,
        images st2 = images st1 ++ extra -> add_image u st2 = (st2, Ok i))
  /\ (exists image,
        images st1 !! i = Some image
        /\ subscript image "uri" = Ok (JStr u))
  /\ (NoDup (uris (images st)) -> NoDup (uris (images st1)))
  /\ (forall path_exists spec_gloss nodes,
        preserves (fun s => NoDup (uris (images s)))
                  (material_loop path_exists spec_gloss nodes)).
Proof.
  intros Hadd. split; [|split; [|split; [|split]]].
  - apply (add_image_again u st st1 i Hadd st1 []). now rewrite app_nil_r.
  - exact (add_image_again u st st1 i Hadd).
  - exact (add_image_entry u st st1 i Hadd).
  - intros Hnd.
    pose proof (add_image_keeps_uris_distinct u st Hnd) as H.
    now rewrite Hadd in H.
  - intros path_exists spec_gloss nodes.
    apply material_loop_preserves;
      first [ apply add_image_keeps_uris_distinct
            | intros; assumption
            | intros line st' H; exact H ].
Qed.

(** C6 on an empty image list: [a.png] is registered at index 0, and
    registering it again returns 0 and leaves the list as it is. *)
Lemma C6_witness :
  add_image "a.png"
    (add_image "a.png" (initial_state ∅ (scene_of []))).1
  = ((add_image "a.png" (initial_state ∅ (scene_of []))).1, Ok 0).
Proof.
  apply (C6_add_image_deduplicates_by_uri
           "a.png" (initial_state ∅ (scene_of []))).
  reflexivity.
Defined.

(** *** The material loop *)

Section MissingDefinition.

Variable path_exists : string -> bool.
Variable spec_gloss : bool.

(** C2, at the inputs where the code departs from it.  For a node whose
    name is not a key of the definitions, line 92 raises [KeyError] and
    the handler begins with the message of line 96, which reads the
    attribute [matnode.name] of a dict: [AttributeError] is raised
    before anything is printed or appended.  The iteration leaves every
    variable as it was, the loop ends there whatever nodes follow, and
    the script ends without writing a document: the node is not passed
    through, and no later node is processed. *)
Theorem C2_missing_definition_raises_AttributeError
    (matnode : json) (name : string) (rest : list json) (st : state) :
  subscript matnode "name" = Ok (JStr name) ->
  mat st !! name = None ->
  lookup_matdef (mat st) matnode = Raise KeyError
  /\ process_matnode path_exists spec_gloss matnode st
     = (st, Raise AttributeError)
  /\ material_loop path_exists spec_gloss (matnode :: rest) st
     = (st, Raise AttributeError)
  /\ forall doc,
       materials doc = matnode :: rest ->
       merge path_exists spec_gloss (mat st) doc = Raise AttributeError.
Proof.
  intros Hname Hmiss.
  assert (Hlook : forall m, m !! name = None ->
                            lookup_matdef m matnode = Raise KeyError).
  { intros m Hm. unfold lookup_matdef. rewrite Hname. simpl. now rewrite Hm. }
  assert (Hproc : forall s, mat s !! name = None ->
                            process_matnode path_exists spec_gloss matnode s
                            = (s, Raise AttributeError)).
  { intros s Hs. unfold process_matnode, bind at 1, gets.
    now rewrite (Hlook _ Hs). }
  split; [now apply Hlook|]. split; [now apply Hproc|]. split.
  - simpl. unfold bind. now rewrite (Hproc st Hmiss).
  - intros doc Hdoc. unfold merge. rewrite Hdoc. simpl. unfold bind.
    now rewrite (Hproc (initial_state (mat st) doc) Hmiss).
Qed.

Lemma texture_slot_key texdefs slot key target st st' tex target' k :
  texture_slot path_exists texdefs slot key target st = (st', Ok (tex, target')) ->
  k <> key -> target' !! k = target !! k.
Proof.
  unfold texture_slot. intros H Hk.
  apply bind_Ok in H as (tex0 & st1 & _ & H).
  destruct (truthy tex0).
  - apply bind_Ok in H as (i & st2 & _ & H). injection H as _ _ <-.
    now rewrite lookup_insert_ne.
  - injection H as _ _ <-. reflexivity.
Qed.



End MissingDefinition.

(** C2 on a scene of two nodes: [Unknown] has no definition, [M1] has
    one.  The run ends at [Unknown]. *)
Lemma C2_witness :
  merge no_file true {[ "M1" := M1_definition ]}
        (scene_of [legacy_node; obj [("name", JStr "M1")]])
  = Raise AttributeError.
Proof.
  destruct (C2_missing_definition_raises_AttributeError
              no_file true legacy_node "Unknown" [obj [("name", JStr "M1")]]
              (initial_state {[ "M1" := M1_definition ]} (scene_of [])))
    as (_ & _ & _ & Hmerge).
  - vm_compute. reflexivity.
  - vm_compute. reflexivity.
  - apply (Hmerge (scene_of [legacy_node; obj [("name", JStr "M1")]])).
    reflexivity.
Defined.

(** *** [add_texture] *)

Lemma eq_index_refl r : eq_index (index_json r) (Some r) = true.
Proof. simpl. apply Z.eqb_refl. Qed.

Lemma new_texture_source r d :
  subscript (new_texture (Some r) d) "source" = Ok (index_json r).
Proof.
  unfold new_texture, subscript.
  destruct d as [j|].
  - rewrite lookup_insert_ne by done. now rewrite lookup_insert_eq.
  - now rewrite lookup_insert_eq.
Qed.

Lemma find_texture_found_app r d texs extra n t :
  find_texture r d texs n = Ok (inl t) ->
  find_texture r d (texs ++ extra) n = Ok (inl t).
Proof.
  revert n. induction texs as [|texture rest IH]; intros n; simpl;
    [discriminate|].
  destruct (subscript texture "source") as [source|e]; simpl; [|discriminate].
  destruct (eq_index source r); [trivial|].
  destruct texture as [| | | | | |tm]; try discriminate.
  destruct (tm !! "extensions") as [ext|]; [|apply IH].
  destruct (subscript ext "MSFT_texture_dds") as [dds|e]; simpl;
    [|discriminate].
  destruct (subscript dds "source") as [ds|e]; simpl; [|discriminate].
  destruct (eq_index ds d); [trivial|apply IH].
Qed.

Lemma find_texture_missing_app r d texs extra n m :
  find_texture (Some r) d texs n = Ok (inr m) ->
  find_texture (Some r) d (texs ++ new_texture (Some r) d :: extra) n
  = Ok (inl m).
Proof.
  revert n. induction texs as [|texture rest IH]; intros n.
  - intros H. simpl in H. injection H as <-.
    cbn [app find_texture]. rewrite new_texture_source.
    cbn [rbind]. now rewrite eq_index_refl.
  - cbn [app find_texture].
    destruct (subscript texture "source") as [source|e]; cbn [rbind];
      [|discriminate].
    destruct (eq_index source (Some r)); [discriminate|].
    destruct texture as [| | | | | |tm]; try discriminate.
    destruct (tm !! "extensions") as [ext|]; [|apply IH].
    destruct (subscript ext "MSFT_texture_dds") as [dds|e]; cbn [rbind];
      [|discriminate].
    destruct (subscript dds "source") as [ds|e]; cbn [rbind]; [|discriminate].
    destruct (eq_index ds d); [discriminate|apply IH].
Qed.

Lemma texture_images_textures path_exists path st :
  textures (texture_images path_exists path st).1 = textures st.
Proof.
  apply (texture_images_preserves path_exists
           (fun s => textures s = textures st)); try done.
  - intros u. apply add_image_preserves. done.
  - intros line s H. exact H.
Qed.

(** The images behind a path are the same at every later lookup of the
    path, and the later lookup adds none. *)
Lemma texture_images_again path_exists path st sta r d :
  texture_images path_exists path st = (sta, Ok (r, d)) ->
  forall st2 more,
    images st2 = images sta ++ more ->
    exists st2',
      texture_images path_exists path st2 = (st2', Ok (r, d))
      /\ images st2' = images st2 /\ textures st2' = textures st2.
Proof.
  intros Hfirst st2 more Himgs. unfold texture_images in *.
  destruct (endswith (lower path) ".dds").
  - apply bind_Ok in Hfirst as ([] & st0 & Hmod & Hfirst).
    injection Hmod as <-.
    apply bind_Ok in Hfirst as (r0 & stb & Hreg & Hfirst).
    apply bind_Ok in Hfirst as (j & stc & Hdds & Hret).
    injection Hret as <- <- <-.
    destruct (add_image_state _ _ _ _ Hdds) as [_ (e2 & He2)].
    unfold bind at 1, modify at 1. unfold bind at 1.
    destruct (path_exists (strip4 path ++ ".png")%string).
    + apply bind_Ok in Hreg as (i & stb' & Hreg & Hret).
      injection Hret as <- <-.
      unfold bind at 1.
      rewrite (add_image_again _ _ _ _ Hreg (set_anyDdsTextures true st2)
                 (e2 ++ more))
        by (simpl; now rewrite Himgs, He2, <- app_assoc).
      unfold ret at 1. unfold bind at 1.
      rewrite (add_image_again _ _ _ _ Hdds (set_anyDdsTextures true st2)
                 more) by (simpl; now rewrite Himgs).
      eexists. repeat split.
    + destruct (path_exists (strip4 path ++ ".jpg")%string).
      * apply bind_Ok in Hreg as (i & stb' & Hreg & Hret).
        injection Hret as <- <-.
        unfold bind at 1.
        rewrite (add_image_again _ _ _ _ Hreg (set_anyDdsTextures true st2)
                   (e2 ++ more))
          by (simpl; now rewrite Himgs, He2, <- app_assoc).
        unfold ret at 1. unfold bind at 1.
        rewrite (add_image_again _ _ _ _ Hdds (set_anyDdsTextures true st2)
                   more) by (simpl; now rewrite Himgs).
        eexists. repeat split.
      * apply bind_Ok in Hreg as ([] & stb' & Hpr & Hret).
        injection Hpr as <-. injection Hret as <- <-.
        unfold bind at 1, print at 1, modify at 1. unfold ret at 1.
        unfold bind at 1.
        match goal with
        | |- context [add_image path ?s] =>
            rewrite (add_image_again _ _ _ _ Hdds s more)
              by (simpl; now rewrite Himgs)
        end.
        eexists. repeat split.
  - apply bind_Ok in Hfirst as (i & stb & Hreg & Hret).
    injection Hret as <- <- <-.
    unfold bind at 1.
    rewrite (add_image_again _ _ _ _ Hreg st2 more) by exact Himgs.
    eexists. repeat split.
Qed.

(** X12.  A texture path behind which a regular image stands (the path is not
    a DDS file, or its PNG or JPEG companion exists) resolves to the same
    texture at every later lookup, whatever was registered in between,
    and the later lookup adds no texture and no image. *)
Lemma add_texture_again path_exists path st st1 t r d :
  add_texture path_exists (JStr path) st = (st1, Ok t) ->
  (texture_images path_exists path st).2 = Ok (Some r, d) ->
  forall st2 more_images more_textures,
    images st2 = images st1 ++ more_images ->
    textures st2 = textures st1 ++ more_textures ->
    (add_texture path_exists (JStr path) st2).2 = Ok t
    /\ textures (add_texture path_exists (JStr path) st2).1 = textures st2
    /\ images (add_texture path_exists (JStr path) st2).1 = images st2.
Proof.
  intros Hadd Hreg st2 mi mt Himgs Htexs.
  unfold add_texture in Hadd.
  apply bind_Ok in Hadd as ([r' d'] & sta & Hfirst & Hadd).
  rewrite Hfirst in Hreg. simpl in Hreg. injection Hreg as -> ->.
  pose proof (texture_images_textures path_exists path st) as Htex.
  rewrite Hfirst in Htex. simpl in Htex.
  apply bind_Ok in Hadd as (texs & stc & Hgets & Hadd).
  injection Hgets as <- <-.
  apply bind_Ok in Hadd as (res & std & Hfind & Hadd).
  apply lift_Ok in Hfind as [Hfind ->].
  assert (Hst1 : images st1 = images sta
                 /\ find_texture (Some r) d (textures st1 ++ mt) 0
                    = Ok (inl t)).
  { destruct res as [t'|t'].
    - injection Hadd as <- <-. split; [reflexivity|].
      now apply find_texture_found_app.
    - apply bind_Ok in Hadd as ([] & ste & Hmod & Hadd).
      injection Hmod as <-. injection Hadd as <- <-. simpl.
      split; [reflexivity|].
      rewrite <- app_assoc. now apply find_texture_missing_app. }
  destruct Hst1 as [Himg1 Hfind1].
  destruct (texture_images_again _ _ _ _ _ _ Hfirst st2 mi)
    as (st2' & Hagain & Hi2 & Ht2); [now rewrite Himgs, Himg1|].
  assert (Hrun : add_texture path_exists (JStr path) st2 = (st2', Ok t)).
  { unfold add_texture. unfold bind at 1. rewrite Hagain.
    unfold bind at 1, gets at 1. unfold bind at 1, lift at 1.
    now rewrite Ht2, Htexs, Hfind1. }
  rewrite Hrun. auto.
Qed.

(** C7, at an input where the code departs from it.  Two nodes, [M1]
    and [M2], name the diffuse texture [wall.dds]; neither [wall.png] nor
    [wall.jpg] exists.  The first node registers texture 0, which has no
    [source] since there is no regular image.  For the second node the
    search of line 75 reads [texture["source"]] of that entry and raises
    [KeyError]: the path is not resolved a second time and no document is
    written. *)
Theorem C7_shared_dds_texture_raises_KeyError :
  merge no_file true
        (<[ "M2" := dds_definition ]> {[ "M1" := dds_definition ]})
        (scene_of [obj [("name", JStr "M1")]; obj [("name", JStr "M2")]])
  = Raise KeyError
  /\ (exists doc,
        merge no_file true {[ "M1" := dds_definition ]}
              (scene_of [obj [("name", JStr "M1")]]) = Ok doc
        /\ gltf_textures doc = [new_texture None (Some 0)]
        /\ subscript (new_texture None (Some 0)) "source" = Raise KeyError)
  /\ (add_texture no_file (JStr "wall.dds")
        (initial_state ∅ (scene_of []))).2 = Ok 0
  /\ (add_texture no_file (JStr "wall.dds")
        (add_texture no_file (JStr "wall.dds")
           (initial_state ∅ (scene_of []))).1).2 = Raise KeyError.
Proof.
  split; [vm_compute; reflexivity|].
  split; [eexists; split; [vm_compute; reflexivity|]|].
  - split; vm_compute; reflexivity.
  - split; vm_compute; reflexivity.
Qed.

(** *** The emissive factor *)

Section EmissiveFactor.

Variable path_exists : string -> bool.
Variable spec_gloss : bool.

(** The texture slots and the factors leave [newmatlist] alone. *)
Lemma texture_slots_newmatlist matdef node block st :
  newmatlist (texture_slots path_exists spec_gloss matdef node block st).1
  = newmatlist st.
Proof.
  apply (texture_slots_preserves path_exists spec_gloss
           (fun s => newmatlist s = newmatlist st)); try done.
  - intros path. apply add_image_preserves. done.
  - intros line s H. exact H.
Qed.

Lemma factors_newmatlist name matdef block d s st :
  newmatlist (factors spec_gloss name matdef block d s st).1 = newmatlist st.
Proof.
  apply (factors_preserves spec_gloss
           (fun s => newmatlist s = newmatlist st)); done.
Qed.


End EmissiveFactor.



(** *** A definition without diffuse color *)

Lemma lookup_matdef_Ok m matnode name matdef :
  lookup_matdef m matnode = Ok (name, matdef) <->
  subscript matnode "name" = Ok (JStr name) /\ m !! name = Some matdef.
Proof.
  unfold lookup_matdef. split.
  - intros H. apply rbind_Ok in H as (v & Hv & H).
    destruct v as [| | | |s| |]; try discriminate.
    destruct (m !! s) as [d|] eqn:Es; [|discriminate].
    injection H as <- <-. auto.
  - intros [-> Hm]. simpl. now rewrite Hm.
Qed.

Lemma alpha_mode_returns md node :
  exists node', alpha_mode (JObj md) node = Ok node'.
Proof.
  unfold alpha_mode, dict_get. simpl.
  destruct (truthy _); [eauto|]. destruct (truthy _); eauto.
Qed.

Lemma emissive_factor_Raise matdef node node' e :
  emissive_factor matdef node = Raise e ->
  emissive_factor matdef node' = Raise e.
Proof.
  unfold emissive_factor.
  destruct (dict_get matdef "Emittance" (JArr [])) as [em|e0]; simpl; [|trivial].
  destruct (py_any em) as [[|]|e1]; simpl; try discriminate; [|trivial].
  destruct (py_len em) as [n|e2]; simpl; [|trivial].
  destruct (n =? 3)%nat; discriminate.
Qed.

Section MissingDiffuse.

Variable path_exists : string -> bool.
Variable spec_gloss : bool.

Lemma texture_slot_value texdefs slot key target st st' tex target' :
  texture_slot path_exists texdefs slot key target st
  = (st', Ok (tex, target')) ->
  dict_get texdefs slot JNull = Ok tex.
Proof.
  unfold texture_slot. intros H.
  apply bind_Ok in H as (tex0 & st1 & H0 & H).
  apply lift_Ok in H0 as [H0 ->]. rewrite H0.
  destruct (truthy tex0).
  - apply bind_Ok in H as (i & st2 & _ & H). now injection H as _ <- _.
  - now injection H as _ <- _.
Qed.

Lemma texture_slots_no_diffuse md node block st st' node' block' d s :
  texture_slots path_exists spec_gloss (JObj md) node block st
  = (st', Ok (node', block', d, s)) ->
  names_diffuse_texture md = false ->
  truthy d = false.
Proof.
  unfold texture_slots, names_diffuse_texture. intros H Hno.
  apply bind_Ok in H as (texdefs & st0 & H0 & H).
  apply lift_Ok in H0 as [H0 ->]. simpl in H0. injection H0 as <-.
  destruct (truthy (default (JObj ∅) (md !! "Textures"))) eqn:Et.
  - apply bind_Ok in H as ([t1 n1] & st1 & H1 & H).
    apply bind_Ok in H as ([t2 n2] & st2 & H2 & H).
    apply bind_Ok in H as ([t3 n3] & st3 & H3 & H).
    apply bind_Ok in H as ([t4 n4] & st4 & H4 & H).
    inversion H; subst; clear H. simpl.
    apply texture_slot_value in H3.
    destruct (md !! "Textures") as [[| | | | | |slots]|]; simpl in H3;
      try discriminate.
    injection H3 as <-. destruct (slots !! "Diffuse"); [exact Hno|reflexivity].
  - inversion H; subst. reflexivity.
Qed.

(** Lines 149-151 and 163-165 without a diffuse color: [len(None)]. *)
Lemma diffuse_factor_without_diffuse name md key block st :
  md !! "Diffuse" = None ->
  diffuse_factor name (JObj md) key block st
  = (set_diffuseFactor (Some JNull) st, Raise TypeError).
Proof.
  intros Hd. unfold diffuse_factor, bind, lift, modify, dict_get.
  rewrite Hd. reflexivity.
Qed.

Lemma factors_without_diffuse name md block d s st :
  md !! "Diffuse" = None -> truthy d = false ->
  factors spec_gloss name (JObj md) block d s st
  = (set_diffuseFactor (Some JNull) st, Raise TypeError).
Proof.
  intros Hd Ht. unfold factors. rewrite Ht. simpl.
  destruct spec_gloss; unfold bind;
    now rewrite (diffuse_factor_without_diffuse _ _ _ _ _ Hd).
Qed.

(** A node whose definition has neither a diffuse color nor a diffuse
    texture ends the loop. *)
Lemma process_matnode_without_diffuse matnode name md st :
  lookup_matdef (mat st) matnode = Ok (name, JObj md) ->
  md !! "Diffuse" = None ->
  names_diffuse_texture md = false ->
  exists st' e,
    process_matnode path_exists spec_gloss matnode st = (st', Raise e)
    /\ (e = TypeError
        \/ (forall node, emissive_factor (JObj md) node = Raise e)
        \/ (exists node block,
              (texture_slots path_exists spec_gloss (JObj md) node block st).2
              = Raise e)).
Proof.
  intros Hlook Hd Hno.
  unfold process_matnode, bind at 1, gets. rewrite Hlook.
  unfold rewrite_matnode.
  destruct (alpha_mode_returns md {[ "name" := JStr name ]}) as (node1 & E1).
  unfold bind at 1, lift at 1. rewrite E1.
  unfold bind at 1, lift at 1.
  destruct (emissive_factor (JObj md) node1) as [node2|e] eqn:E2.
  - unfold bind at 1.
    destruct (texture_slots path_exists spec_gloss (JObj md) node2 ∅ st)
      as [st3 [[[[node3 block] d] s]|e]] eqn:E3.
    + unfold bind at 1.
      rewrite (factors_without_diffuse name md block d s st3 Hd
                 (texture_slots_no_diffuse _ _ _ _ _ _ _ _ _ E3 Hno)).
      eexists _, TypeError. split; [reflexivity|]. now left.
    + eexists _, e. split; [reflexivity|]. right; right.
      exists node2, ∅. now rewrite E3.
  - eexists _, e. split; [reflexivity|]. right; left.
    intros node. exact (emissive_factor_Raise _ _ _ _ E2).
Qed.

(** *** Definitions without a diffuse color stay as they are *)

Lemma diffuse_factor_keeps_definition name md name' matdef' key block st :
  md !! "Diffuse" = None ->
  mat st !! name = Some (JObj md) ->
  mat st !! name' = Some matdef' ->
  mat (diffuse_factor name' matdef' key block st).1 !! name
  = Some (JObj md).
Proof.
  intros Hd Hn Hn'. unfold diffuse_factor, bind, lift, modify.
  destruct (dict_get matdef' "Diffuse" JNull) as [d|e] eqn:Ed; simpl;
    [|exact Hn].
  destruct (dict_get matdef' "Opacity" (JFloat 1)) as [o|e]; simpl; [|exact Hn].
  destruct (py_len d) as [n|e] eqn:El; simpl; [|exact Hn].
  destruct (n =? 3)%nat; simpl; [|exact Hn].
  destruct d as [| | | | |l|]; simpl; try exact Hn.
  destruct (decide (name' = name)) as [->|Hne].
  - exfalso. rewrite Hn in Hn'. injection Hn' as <-.
    simpl in Ed. rewrite Hd in Ed. discriminate.
  - rewrite lookup_alter_ne by done. exact Hn.
Qed.

Lemma texture_slots_keeps_mat matdef node block st :
  mat (texture_slots path_exists spec_gloss matdef node block st).1 = mat st.
Proof.
  apply (texture_slots_preserves path_exists spec_gloss
           (fun s => mat s = mat st)); try done.
  - intros path. apply add_image_preserves. done.
  - intros line s H. exact H.
Qed.

Lemma metallic_roughness_keeps_mat matdef block st :
  mat (metallic_roughness matdef block st).1 = mat st.
Proof.
  now apply (metallic_roughness_preserves (fun s => mat s = mat st)).
Qed.

Lemma factors_keeps_definition name md name' matdef' block d s st :
  md !! "Diffuse" = None ->
  mat st !! name = Some (JObj md) ->
  mat st !! name' = Some matdef' ->
  mat (factors spec_gloss name' matdef' block d s st).1 !! name
  = Some (JObj md).
Proof.
  intros Hd Hn Hn'. unfold factors.
  assert (Hdf := fun key =>
            diffuse_factor_keeps_definition name md name' matdef' key
              block st Hd Hn Hn').
  destruct spec_gloss; unfold bind.
  - destruct (negb (truthy d)).
    + specialize (Hdf "diffuseFactor").
      destruct (diffuse_factor name' matdef' "diffuseFactor" block st)
        as [st1 [b|e]]; simpl in Hdf; [|exact Hdf].
      destruct (negb (truthy s)); exact Hdf.
    + simpl. destruct (negb (truthy s)); exact Hn.
  - destruct (negb (truthy d)).
    + specialize (Hdf "baseColorFactor").
      destruct (diffuse_factor name' matdef' "baseColorFactor" block st)
        as [st1 [b|e]]; simpl in Hdf; [|exact Hdf].
      destruct (negb (truthy s)); [|exact Hdf].
      now rewrite metallic_roughness_keeps_mat.
    + simpl. destruct (negb (truthy s)); [|exact Hn].
      now rewrite metallic_roughness_keeps_mat.
Qed.

Lemma process_matnode_keeps_definition name md matnode :
  md !! "Diffuse" = None ->
  preserves (fun s => mat s !! name = Some (JObj md))
            (process_matnode path_exists spec_gloss matnode).
Proof.
  intros Hd st Hn.
  unfold process_matnode, bind at 1, gets.
  destruct (lookup_matdef (mat st) matnode) as [[name' matdef']|e] eqn:Elook.
  - apply lookup_matdef_Ok in Elook as [_ Hn'].
    unfold rewrite_matnode, bind, lift.
    destruct (alpha_mode matdef' _) as [node1|e]; [|exact Hn].
    destruct (emissive_factor matdef' node1) as [node2|e]; [|exact Hn].
    pose proof (texture_slots_keeps_mat matdef' node2 ∅ st) as Hmat.
    destruct (texture_slots path_exists spec_gloss matdef' node2 ∅ st)
      as [st3 [[[[node3 block] d] s]|e]]; simpl in Hmat; simpl;
      [|now rewrite Hmat].
    assert (Hfac := factors_keeps_definition name md name' matdef' block d s
                      st3).
    rewrite Hmat in Hfac. specialize (Hfac Hd Hn Hn').
    destruct (factors spec_gloss name' matdef' block d s st3)
      as [st4 [b|e]]; exact Hfac.
  - destruct e; exact Hn.
Qed.

Lemma material_loop_keeps_definition name md nodes :
  md !! "Diffuse" = None ->
  preserves (fun s => mat s !! name = Some (JObj md))
            (material_loop path_exists spec_gloss nodes).
Proof.
  intros Hd. induction nodes as [|matnode rest IH]; simpl.
  - apply preserves_ret.
  - apply preserves_bind; [|intros _; exact IH].
    now apply process_matnode_keeps_definition.
Qed.

Lemma material_loop_app pre post st :
  material_loop path_exists spec_gloss (pre ++ post) st
  = match material_loop path_exists spec_gloss pre st with
    | (st1, Ok _) => material_loop path_exists spec_gloss post st1
    | (st1, Raise e) => (st1, Raise e)
    end.
Proof.
  revert st. induction pre as [|matnode rest IH]; intros st; simpl;
    [reflexivity|].
  unfold bind.
  destruct (process_matnode path_exists spec_gloss matnode st)
    as [st1 [[]|e]]; [apply IH|reflexivity].
Qed.

(** C9, as the code has it.  A node whose definition has no [Diffuse]
    field and names no diffuse texture never completes, in either mode:
    its iteration raises, the loop stops there, and the run ends in that
    exception without a document.  The exception is the [TypeError] of
    [len(None)] unless the emissive check or the resolution of a texture
    slot of the same node raised first. *)
Theorem C9_missing_diffuse_color_aborts_the_run
    (defs : gmap string json) (doc : gltf) (pre post : list json)
    (matnode : json) (name : string) (md : gmap string json) :
  materials doc = pre ++ matnode :: post ->
  subscript matnode "name" = Ok (JStr name) ->
  defs !! name = Some (JObj md) ->
  md !! "Diffuse" = None ->
  names_diffuse_texture md = false ->
  (exists e, merge path_exists spec_gloss defs doc = Raise e)
  /\ forall st,
       mat st !! name = Some (JObj md) ->
       exists st' e,
         process_matnode path_exists spec_gloss matnode st = (st', Raise e)
         /\ (e = TypeError
             \/ (forall node, emissive_factor (JObj md) node = Raise e)
             \/ (exists node block,
                   (texture_slots path_exists spec_gloss (JObj md) node block
                      st).2 = Raise e))
         /\ forall rest,
              material_loop path_exists spec_gloss (matnode :: rest) st
              = (st', Raise e).
Proof.
  intros Hdoc Hname Hdef Hd Hno.
  assert (Hnode : forall st,
             mat st !! name = Some (JObj md) ->
             exists st' e,
               process_matnode path_exists spec_gloss matnode st
               = (st', Raise e)
               /\ (e = TypeError
                   \/ (forall node, emissive_factor (JObj md) node = Raise e)
                   \/ (exists node block,
                         (texture_slots path_exists spec_gloss (JObj md) node
                            block st).2 = Raise e))).
  { intros st Hst.
    apply (process_matnode_without_diffuse matnode name md st); try assumption.
    apply lookup_matdef_Ok. auto. }
  split.
  - unfold merge. rewrite Hdoc, material_loop_app.
    pose proof (material_loop_keeps_definition name md pre Hd
                  (initial_state defs doc) Hdef) as Hkept.
    destruct (material_loop path_exists spec_gloss pre
                (initial_state defs doc)) as [st1 [[]|e]]; [|eauto].
    simpl in Hkept. destruct (Hnode st1 Hkept) as (st' & e & Hrun & _).
    simpl. unfold bind. rewrite Hrun. eauto.
  - intros st Hst. destruct (Hnode st Hst) as (st' & e & Hrun & He).
    exists st', e. repeat split; [exact Hrun|exact He|].
    intros rest. simpl. unfold bind. now rewrite Hrun.
Qed.

End MissingDiffuse.

(** C9 on a definition that has a specular color only. *)
Lemma C9_witness :
  exists e,
    merge no_file true {[ "M" := obj [("Specular", JArr [])] ]}
          (scene_of [obj [("name", JStr "M")]]) = Raise e.
Proof.
  refine (proj1 (C9_missing_diffuse_color_aborts_the_run
                   no_file true {[ "M" := obj [("Specular", JArr [])] ]}
                   (scene_of [obj [("name", JStr "M")]])
                   [] [] (obj [("name", JStr "M")]) "M"
                   (list_to_map [("Specular", JArr [])]) _ _ _ _ _));
    vm_compute; reflexivity.
Defined.

(** C9 as stated names the exception.  With two DDS textures that have
    no PNG or JPEG companion, the second texture lookup raises [KeyError]
    before the diffuse color is looked at. *)
Lemma C9_counterexample :
  two_dds_definition = obj [("Textures", obj [("Emittance", JStr "glow.dds");
                                              ("Bumpmap", JStr "bump.dds")])]
  /\ dict_get two_dds_definition "Diffuse" JNull = Ok JNull
  /\ merge no_file false {[ "M" := two_dds_definition ]}
           (scene_of [obj [("name", JStr "M")]]) = Raise KeyError
  /\ merge no_file true {[ "M" := two_dds_definition ]}
           (scene_of [obj [("name", JStr "M")]]) = Raise KeyError
  /\ KeyError <> TypeError.
Proof. repeat split; try (vm_compute; reflexivity). discriminate. Qed.

End MatToGltfProofs.

(** * Further properties of [lz4_tar.py] *)
Module Lz4TarExtra.
Import Lz4Tar Lz4TarProofs.
#[local] Open Scope list_scope.

(** *** Archive paths *)

Lemma replace_backslash_clean s : ~ In "\"%char (replace_backslash s).
Proof.
  induction s as [|c s IH]; simpl; [tauto|].
  intros [H|H]; [|tauto].
  destruct (Ascii.eqb_spec c "\"%char) as [->|Hc]; [discriminate|congruence].
Qed.

(** X1.  Whatever the prefix and the path, the archive path has no backslash:
    line 48 replaces them after the prefix is joined. *)
Theorem normalize_path_has_no_backslash (prefix path : string) :
  ~ In "\"%char (list_ascii_of_string (normalize_path prefix path)).
Proof.
  unfold normalize_path, to_string.
  rewrite list_ascii_of_string_of_list_ascii. apply replace_backslash_clean.
Qed.

(** *** The extension of a path *)

Lemma rfind_from_spec c s i found :
  (rfind_from c s i found = found /\ ~ In c s)
  \/ ((i <= rfind_from c s i found < i + Z.of_nat (length s))%Z
      /\ s !! Z.to_nat (rfind_from c s i found - i) = Some c).
Proof.
  revert i found. induction s as [|x r IH]; intros i found; simpl.
  - left. tauto.
  - destruct (IH (i + 1)%Z (if Ascii.eqb x c then i else found))
      as [[Hk Hn]|[Hk Hl]].
    + rewrite Hk. destruct (Ascii.eqb_spec x c) as [->|Hne].
      * right. split; [lia|]. now rewrite Z.sub_diag.
      * left. split; [reflexivity|]. intros [H|H]; [congruence|tauto].
    + right. split; [lia|].
      replace (Z.to_nat (rfind_from c r (i + 1)
                           (if Ascii.eqb x c then i else found) - i))
        with (S (Z.to_nat (rfind_from c r (i + 1)
                             (if Ascii.eqb x c then i else found) - (i + 1))))
        by lia.
      exact Hl.
Qed.

(** The extension [splitext] computes is empty or begins with its dot. *)
Lemma extension_of_shape p :
  extension_of p = [] \/ exists r, extension_of p = "."%char :: r.
Proof.
  unfold extension_of.
  destruct (rfind "."%char p >? rfind sep p)%Z eqn:Egt; [|now left].
  match goal with |- context [if ?b then _ else _] => destruct b end;
    [|now left].
  right. apply Z.gtb_lt in Egt.
  assert (Hsep : (-1 <= rfind sep p)%Z).
  { unfold rfind. destruct (rfind_from_spec sep p 0 (-1)) as [[-> _]|[H _]]; lia. }
  unfold rfind in *.
  destruct (rfind_from_spec "."%char p 0 (-1)) as [[Hk _]|[Hk Hl]]; [lia|].
  rewrite Z.sub_0_r in Hl.
  exists (drop (S (Z.to_nat (rfind_from "."%char p 0 (-1)))) p).
  now apply drop_S.
Qed.

Section Archiver.

Variable prefix : string.
Variable compress : Z.
Variable no_compress : list string.
Variable read_file : string -> option (list Byte.byte).
Variable isdir : string -> bool.
Variable walk : string -> list (string * list string).
Variable lz4_compress : Z -> list Byte.byte -> list Byte.byte.

#[local] Abbreviation process_file :=
  (process_file prefix compress no_compress read_file lz4_compress).
#[local] Abbreviation process_input :=
  (process_input prefix compress no_compress read_file isdir walk lz4_compress).
#[local] Abbreviation main :=
  (main prefix compress no_compress read_file isdir walk lz4_compress).
#[local] Abbreviation stored := (stored prefix).
#[local] Abbreviation compressed := (compressed prefix compress lz4_compress).
#[local] Abbreviation member := (member prefix compress no_compress lz4_compress).
#[local] Abbreviation archivable :=
  (archivable prefix compress no_compress read_file lz4_compress).
#[local] Abbreviation members :=
  (members prefix compress no_compress read_file lz4_compress).
#[local] Abbreviation input_files := (input_files isdir walk).

(** X2.  A file that is read, at a non-zero level and with an extension that
    is not exempt, is stored compressed: the member handed to the archive
    carries the output of the codec, its size is the number of those
    bytes, its name is the normalized path followed by [.lz4].  The
    archive appends that member, or refuses it with [ValueError] when the
    name or the size does not fit the header; either way the original
    total has grown by the bytes read and the compressed total by the
    bytes of the codec. *)
Theorem compressed_entry_is_codec_output path contents st :
  read_file path = Some contents ->
  compress <> 0%Z ->
  ~ In (to_string (extension_of (of_string path))) no_compress ->
  exists st',
    process_file path st
    = (st', if accepted (compressed path contents) then Next tt
            else Stop (Uncaught ValueError))
    /\ tar st' = (if accepted (compressed path contents)
                  then tar st ++ [compressed path contents]
                  else tar st)
    /\ entry_payload (compressed path contents)
       = lz4_compress compress contents
    /\ entry_size (compressed path contents)
       = Z.of_nat (length (lz4_compress compress contents))
    /\ entry_name (compressed path contents)
       = (normalize_path prefix path ++ ".lz4")%string
    /\ original_size st' = (original_size st + Z.of_nat (length contents))%Z
    /\ compressed_size st'
       = (compressed_size st
          + Z.of_nat (length (lz4_compress compress contents)))%Z.
Proof.
  intros Hread Hc Hext.
  rewrite (process_file_read prefix compress no_compress read_file
             lz4_compress path contents st Hread).
  rewrite (member_compressed prefix compress no_compress lz4_compress
             path contents Hc Hext).
  destruct (accepted (compressed path contents)); eexists;
    (split; [reflexivity|]); repeat split.
Qed.

(** X3.  An entry of [--no-compress] that does not begin with a dot (and is
    not empty) exempts no file: the extension line 66 computes is empty
    or begins with its dot, so at a non-zero level the member of every
    file is the file compressed, which the archive appends or refuses. *)
Theorem dotless_no_compress_entry_never_matches path contents st :
  Forall (fun x => exists c r, x = String c r /\ c <> "."%char) no_compress ->
  compress <> 0%Z ->
  read_file path = Some contents ->
  member path contents = compressed path contents
  /\ exists st',
       process_file path st
       = (st', if accepted (compressed path contents) then Next tt
               else Stop (Uncaught ValueError))
       /\ tar st' = (if accepted (compressed path contents)
                     then tar st ++ [compressed path contents]
                     else tar st).
Proof.
  intros Hall Hc Hread.
  assert (Hext : ~ In (to_string (extension_of (of_string path))) no_compress).
  { intros Hin. rewrite List.Forall_forall in Hall.
    destruct (Hall _ Hin) as (c & r & Hx & Hdot).
    destruct (extension_of_shape (of_string path)) as [E|(r' & E)];
      rewrite E in Hx; simpl in Hx; [discriminate|].
    injection Hx as <- _. congruence. }
  pose proof (member_compressed prefix compress no_compress lz4_compress
                path contents Hc Hext) as Hmember.
  split; [exact Hmember|].
  rewrite (process_file_read prefix compress no_compress read_file
             lz4_compress path contents st Hread), Hmember.
  destruct (accepted (compressed path contents)); eexists; split; reflexivity.
Qed.

(** *** The totals and the archive *)

Lemma statistics_keeps_archive st :
  tar (statistics compress st).1 = tar st
  /\ compressed_size (statistics compress st).1 = compressed_size st
  /\ original_size (statistics compress st).1 = original_size st.
Proof.
  unfold statistics.
  destruct (negb (compress =? 0)%Z); simpl; [|auto].
  destruct (compressed_size st =? 0)%Z; simpl; auto.
Qed.

Lemma statistics_never_ValueError st :
  (statistics compress st).2 <> Stop (Uncaught ValueError).
Proof.
  unfold statistics.
  destruct (negb (compress =? 0)%Z); simpl; [|discriminate].
  destruct (compressed_size st =? 0)%Z; simpl; discriminate.
Qed.

(** What the loop over the files keeps: while it runs the compressed
    total is the sum of the sizes of the members; a member the archive
    refuses has been counted and is not in the archive, and then the
    loop has ended with [ValueError]. *)
Lemma process_files_totals files st :
  compressed_size st = total_size (tar st) ->
  Forall (fun e => entry_size e = Z.of_nat (length (entry_payload e)))
         (tar st) ->
  (0 <= original_size st)%Z ->
  let r := for_each process_file files st in
  (total_size (tar r.1) <= compressed_size r.1)%Z
  /\ (r.2 <> Stop (Uncaught ValueError) ->
      compressed_size r.1 = total_size (tar r.1))
  /\ (r.2 = Stop (Uncaught ValueError) ->
      exists path contents,
        In path files
        /\ read_file path = Some contents
        /\ accepted (member path contents) = false
        /\ compressed_size r.1
           = (total_size (tar r.1) + entry_size (member path contents))%Z)
  /\ Forall (fun e => entry_size e = Z.of_nat (length (entry_payload e)))
            (tar r.1)
  /\ (0 <= original_size r.1)%Z.
Proof.
  revert st. induction files as [|path rest IH]; intros st Hsum Hall Ho; simpl.
  - repeat split; try assumption; try lia. discriminate.
  - unfold bind.
    destruct (read_file path) as [contents|] eqn:Hread.
    + rewrite (process_file_read prefix compress no_compress read_file
                 lz4_compress path contents st Hread).
      pose proof (member_size prefix compress no_compress lz4_compress
                    path contents) as Hm.
      destruct (accepted (member path contents)) eqn:Hacc.
      * match goal with |- context [for_each _ rest ?s] =>
          destruct (IH s) as (H1 & H2 & H3 & H4 & H5) end.
        { simpl. rewrite total_size_app, Hsum. unfold total_size. simpl. lia. }
        { simpl. apply Forall_app. split; [exact Hall|]. now repeat constructor. }
        { simpl. unfold size_of. lia. }
        repeat split; try assumption.
        intros Hv. destruct (H3 Hv) as (p & c & Hin & Hp).
        exists p, c. split; [now right|exact Hp].
      * simpl. repeat split; try assumption.
        -- rewrite Hm, Hsum. lia.
        -- intros H. now contradiction H.
        -- intros _. exists path, contents. rewrite Hsum. auto.
        -- unfold size_of. lia.
    + destruct (process_file_unreadable prefix compress no_compress read_file
                  lz4_compress path st Hread)
        as (st' & Hrun & Htar & Hsize & _).
      rewrite Hrun. simpl. rewrite Htar, Hsize.
      repeat split; try assumption; try lia; try discriminate.
      unfold Lz4Tar.process_file, bind, print, modify, stop in Hrun.
      rewrite Hread in Hrun. simpl in Hrun. injection Hrun as <-. exact Ho.
Qed.

(** X7.  The counters and the archive at the end of every run.  The
    compressed total is the sum of the sizes recorded in the members,
    unless the run ended in the [ValueError] of a member the archive
    refused: line 72 had counted that member before line 76 refused it,
    and the total exceeds the sum by its size.  Each member records the
    number of bytes of its payload, and neither total is negative. *)
Theorem totals_agree_with_archive (inputs : list string) :
  ((main inputs).2 <> Stop (Uncaught ValueError) ->
   compressed_size (main inputs).1 = total_size (tar (main inputs).1))
  /\ ((main inputs).2 = Stop (Uncaught ValueError) ->
      exists path contents,
        In path (flat_map input_files inputs)
        /\ read_file path = Some contents
        /\ accepted (member path contents) = false
        /\ compressed_size (main inputs).1
           = (total_size (tar (main inputs).1)
              + entry_size (member path contents))%Z)
  /\ (total_size (tar (main inputs).1) <= compressed_size (main inputs).1)%Z
  /\ Forall (fun e => entry_size e = Z.of_nat (length (entry_payload e)))
            (tar (main inputs).1)
  /\ (0 <= original_size (main inputs).1)%Z
  /\ (0 <= total_size (tar (main inputs).1))%Z.
Proof.
  destruct (process_files_totals (flat_map input_files inputs) initial_state)
    as (H1 & H2 & H3 & H4 & H5); try reflexivity; [constructor|].
  assert (Hpos : forall l,
             Forall (fun e => entry_size e = Z.of_nat (length (entry_payload e))) l ->
             (0 <= total_size l)%Z).
  { induction 1 as [|e l He _ IH]; unfold total_size in *; simpl; lia. }
  unfold Lz4Tar.main, bind.
  rewrite (process_inputs_flat prefix compress no_compress read_file isdir
             walk lz4_compress).
  destruct (for_each process_file (flat_map input_files inputs) initial_state)
    as [st [[]|h]]; simpl in *.
  - destruct (statistics_keeps_archive st) as (Et & Ec & Eo).
    rewrite Et, Ec, Eo.
    split; [intros _; apply H2; discriminate|].
    split; [intros Hv; now destruct (statistics_never_ValueError st)|].
    auto.
  - split; [exact H2|]. split; [exact H3|]. auto.
Qed.

(** X6.  A run over files that can all be read, and whose members the archive
    takes, puts one member in the archive for each file the inputs stand
    for, in the order of lines 79-88: the file stored as it is or the
    file compressed, under its normalized path.  Directories add no
    member of their own. *)
Theorem main_archives_every_file_once (inputs : list string) :
  Forall (fun path => archivable path = true) (flat_map input_files inputs) ->
  Forall2 (fun path e =>
             exists contents,
               read_file path = Some contents
               /\ e = member path contents
               /\ (e = stored path contents \/ e = compressed path contents))
          (flat_map input_files inputs) (tar (main inputs).1).
Proof.
  intros Hall.
  destruct (process_files_archivable prefix compress no_compress read_file
              lz4_compress _ initial_state Hall)
    as (st & Hrun & Htar & _).
  unfold Lz4Tar.main, bind.
  rewrite (process_inputs_flat prefix compress no_compress read_file isdir
             walk lz4_compress), Hrun.
  destruct (statistics_keeps_archive st) as (-> & _).
  rewrite Htar. simpl.
  eapply Forall2_impl;
    [apply (members_archivable prefix compress no_compress read_file
              lz4_compress _ Hall)|].
  intros path e (contents & Hread & -> & _). exists contents.
  split; [exact Hread|]. split; [reflexivity|].
  unfold Lz4Tar.member. destruct (_ && _); auto.
Qed.

(** X21.  A file that is read but whose member the archive refuses (a name
    that fits neither the name field nor a split into prefix and name, or
    a size of 8 GiB or more) ends the run in an uncaught [ValueError],
    status 1.  The archive holds the members of the files before it, the
    compressed total already counts the refused member, and no summary
    is printed. *)
Theorem main_stops_at_refused_member inputs before bad contents after :
  flat_map input_files inputs = before ++ bad :: after ->
  Forall (fun path => archivable path = true) before ->
  read_file bad = Some contents ->
  accepted (member bad contents) = false ->
  (main inputs).2 = Stop (Uncaught ValueError)
  /\ exit_status (main inputs) = 1%Z
  /\ tar (main inputs).1 = members before
  /\ compressed_size (main inputs).1
     = (total_size (members before) + entry_size (member bad contents))%Z
  /\ List.last (stdout (main inputs).1) (CannotRead "")
     = PathLine (normalize_path prefix bad).
Proof.
  intros Hfiles Hbefore Hread Hrefused.
  destruct (process_files_archivable prefix compress no_compress read_file
              lz4_compress before initial_state Hbefore)
    as (st1 & Hrun1 & Htar1 & Hsize1).
  simpl in Htar1, Hsize1.
  assert (Hmain : main inputs
                  = (mkState (original_size st1 + size_of contents)
                       (compressed_size st1 + entry_size (member bad contents))
                       (tar st1)
                       (stdout st1 ++ [PathLine (normalize_path prefix bad)]),
                     Stop (Uncaught ValueError))).
  { unfold Lz4Tar.main. unfold bind at 1.
    rewrite (process_inputs_flat prefix compress no_compress read_file isdir
               walk lz4_compress), Hfiles, for_each_app, Hrun1.
    simpl. unfold bind.
    now rewrite (process_file_read prefix compress no_compress read_file
                   lz4_compress bad contents st1 Hread), Hrefused. }
  unfold exit_status. rewrite Hmain. simpl. repeat split.
  - exact Htar1.
  - now rewrite Hsize1.
  - apply last_last.
Qed.

End Archiver.

(** *** The properties on small file systems *)

Lemma compressed_entry_witness :
  exists st',
    process_file "pre" 5 [".png"] (fun _ => Some [Byte.x01; Byte.x02])
                 (fun _ c => Byte.xff :: c) "a/./mesh.bin" initial_state
    = (st', Next tt)
    /\ tar st'
       = [mkEntry "pre/a/mesh.bin.lz4" 3 [Byte.xff; Byte.x01; Byte.x02]].
Proof.
  destruct (compressed_entry_is_codec_output
              "pre" 5 [".png"] (fun _ => Some [Byte.x01; Byte.x02])
              (fun _ c => Byte.xff :: c) "a/./mesh.bin" [Byte.x01; Byte.x02]
              initial_state)
    as (st' & Hrun & Htar & _).
  - reflexivity.
  - lia.
  - vm_compute. intuition discriminate.
  - exists st'. split; [exact Hrun|]. rewrite Htar. reflexivity.
Defined.

Lemma dotless_no_compress_witness :
  exists st',
    process_file "" 1 ["png"] (fun _ => Some [Byte.x01])
                 (fun _ c => Byte.xff :: c) "tex.png" initial_state
    = (st', Next tt)
    /\ tar st' = [mkEntry "tex.png.lz4" 2 [Byte.xff; Byte.x01]].
Proof.
  destruct (dotless_no_compress_entry_never_matches
              "" 1 ["png"] (fun _ => Some [Byte.x01])
              (fun _ c => Byte.xff :: c) "tex.png" [Byte.x01] initial_state)
    as (_ & st' & Hrun & Htar).
  - repeat constructor. exists "p"%char, "ng". split; [reflexivity|discriminate].
  - lia.
  - reflexivity.
  - exists st'. split; [exact Hrun|]. rewrite Htar. reflexivity.
Defined.

(** A file system with the files [a.txt] and [dir/b.bin]; [dir] is a
    directory, nothing else exists. *)
Lemma main_stops_witness :
  exit_status
    (main "" 0 []
          (fun p => if String.eqb p "a.txt" then Some [Byte.x01]
                    else if String.eqb p "dir/b.bin" then Some [Byte.x02]
                    else None)
          (fun p => String.eqb p "dir")
          (fun _ => [("dir", ["b.bin"])])
          (fun _ c => c)
          ["a.txt"; "missing"; "dir"])
  = 1%Z.
Proof.
  apply (main_stops_at_unreadable_file
           "" 0 []
           (fun p => if String.eqb p "a.txt" then Some [Byte.x01]
                     else if String.eqb p "dir/b.bin" then Some [Byte.x02]
                     else None)
           (fun p => String.eqb p "dir")
           (fun _ => [("dir", ["b.bin"])])
           (fun _ c => c)
           ["a.txt"; "missing"; "dir"] ["a.txt"] "missing" ["dir/b.bin"]).
  - reflexivity.
  - repeat constructor.
  - reflexivity.
Defined.

Lemma main_succeeds_witness :
  exit_status
    (main "" 2 []
          (fun p => if String.eqb p "a.txt" then Some [Byte.x01]
                    else if String.eqb p "dir/b.bin" then Some [Byte.x02]
                    else None)
          (fun p => String.eqb p "dir")
          (fun _ => [("dir", ["b.bin"])])
          (fun _ c => Byte.xff :: c)
          ["a.txt"; "dir"])
  = 0%Z.
Proof.
  apply (main_succeeds_when_files_archivable
           "" 2 []
           (fun p => if String.eqb p "a.txt" then Some [Byte.x01]
                     else if String.eqb p "dir/b.bin" then Some [Byte.x02]
                     else None)
           (fun p => String.eqb p "dir")
           (fun _ => [("dir", ["b.bin"])])
           (fun _ c => Byte.xff :: c)
           ["a.txt"; "dir"]).
  - repeat constructor.
  - right. vm_compute. discriminate.
Defined.

Lemma main_archives_witness :
  tar (main "" 2 [".txt"]
            (fun p => if String.eqb p "a.txt" then Some [Byte.x01]
                      else if String.eqb p "dir/b.bin" then Some [Byte.x02]
                      else None)
            (fun p => String.eqb p "dir")
            (fun _ => [("dir", ["b.bin"])])
            (fun _ c => Byte.xff :: c)
            ["a.txt"; "dir"]).1
  = [mkEntry "a.txt" 1 [Byte.x01];
     mkEntry "dir/b.bin.lz4" 2 [Byte.xff; Byte.x02]].
Proof.
  pose proof (main_archives_every_file_once
           "" 2 [".txt"]
           (fun p => if String.eqb p "a.txt" then Some [Byte.x01]
                     else if String.eqb p "dir/b.bin" then Some [Byte.x02]
                     else None)
           (fun p => String.eqb p "dir")
           (fun _ => [("dir", ["b.bin"])])
           (fun _ c => Byte.xff :: c)
           ["a.txt"; "dir"]) as H.
  assert (Hall : Forall (fun path =>
             archivable "" 2 [".txt"]
               (fun p => if String.eqb p "a.txt" then Some [Byte.x01]
                         else if String.eqb p "dir/b.bin" then Some [Byte.x02]
                         else None)
               (fun _ c => Byte.xff :: c) path = true)
            ["a.txt"; "dir/b.bin"]).
  { repeat constructor. }
  specialize (H Hall). clear Hall. reflexivity.
Defined.

Lemma main_refused_witness :
  main "" 0 []
       (fun p => if String.eqb p "a.txt" then Some [Byte.x01]
                 else if String.eqb p long_name then Some [Byte.x02; Byte.x03]
                 else None)
       (fun _ => false) (fun _ => []) (fun _ c => c)
       ["a.txt"; long_name; "a.txt"]
  = (mkState 3 3 [mkEntry "a.txt" 1 [Byte.x01]]
             [PathLine "a.txt"; PathLine long_name],
     Stop (Uncaught ValueError)).
Proof.
  pose proof (main_stops_at_refused_member
           "" 0 []
           (fun p => if String.eqb p "a.txt" then Some [Byte.x01]
                     else if String.eqb p long_name then Some [Byte.x02; Byte.x03]
                     else None)
           (fun _ => false) (fun _ => []) (fun _ c => c)
           ["a.txt"; long_name; "a.txt"] ["a.txt"] long_name
           [Byte.x02; Byte.x03] ["a.txt"]
           eq_refl) as H.
  assert (Hall : Forall (fun path =>
             archivable "" 0 []
               (fun p => if String.eqb p "a.txt" then Some [Byte.x01]
                         else if String.eqb p long_name
                              then Some [Byte.x02; Byte.x03]
                         else None)
               (fun _ c => c) path = true)
            ["a.txt"]).
  { repeat constructor. }
  specialize (H Hall eq_refl eq_refl). clear Hall. reflexivity.
Defined.

End Lz4TarExtra.

(** * Further properties of [mat_to_gltf.py] *)
Module MatToGltfExtra.
Import MatToGltf MatToGltfProofs.
#[local] Open Scope list_scope.

(** *** [add_image] on a list with an entry that has no URI *)

Lemma find_image_raises path pre image post e n :
  Forall (fun im => exists v, subscript im "uri" = Ok v
                              /\ eq_str v path = false) pre ->
  subscript image "uri" = Raise e ->
  find_image path (pre ++ image :: post) n = Raise e.
Proof.
  intros Hpre Himage. revert n.
  induction Hpre as [|im pre (v & Hv & Hne) _ IH]; intros n; simpl.
  - now rewrite Himage.
  - rewrite Hv. simpl. rewrite Hne. apply IH.
Qed.

(** X8.  An entry of the image list that cannot give a URI (an image stored
    in a buffer view has none) stops every registration that has to look
    at it: [add_image] raises what [image["uri"]] raises, [KeyError] for
    a dict, and registers nothing. *)
Theorem add_image_raises_at_entry_without_uri
    (path : string) (st : state) (pre post : list json) (image : json)
    (e : exn) :
  images st = pre ++ image :: post ->
  Forall (fun im => exists v, subscript im "uri" = Ok v
                              /\ eq_str v path = false) pre ->
  subscript image "uri" = Raise e ->
  add_image path st = (st, Raise e).
Proof.
  intros Himgs Hpre Himage.
  unfold add_image, bind, gets, lift.
  now rewrite Himgs, (find_image_raises path pre image post e 0 Hpre Himage).
Qed.

(** *** The images behind a texture path *)

Lemma add_image_is u st st1 i :
  add_image u st = (st1, Ok i) -> image_is (images st1) (Some i) (Some u).
Proof. intros H. exact (add_image_entry u st st1 i H). Qed.

Lemma image_is_app imgs extra i u :
  image_is imgs i u -> image_is (imgs ++ extra) i u.
Proof.
  destruct i as [n|], u as [uri|]; simpl; try tauto.
  intros (image & Hl & Hu). exists image. split; [|exact Hu].
  now apply lookup_app_l_Some.
Qed.

(** X10.  The images [add_texture] works with are those of [regular_path] and
    [dds_path]: a DDS path gets its PNG companion as regular image when
    that file exists, whether or not a JPEG exists too, else its JPEG
    companion, else none; any other path is its own regular image and
    has no DDS image.  The indices returned point at entries of the
    image list that carry these URIs. *)
Theorem texture_images_are_the_companions
    (path_exists : string -> bool) (path : string) (st sta : state)
    (r d : option nat) :
  texture_images path_exists path st = (sta, Ok (r, d)) ->
  image_is (images sta) r (regular_path path_exists path)
  /\ image_is (images sta) d (dds_path path).
Proof.
  unfold texture_images, regular_path, dds_path.
  destruct (endswith (lower path) ".dds").
  - intros H.
    apply bind_Ok in H as ([] & st0 & Hmod & H). injection Hmod as <-.
    apply bind_Ok in H as (r0 & stb & Hreg & H).
    apply bind_Ok in H as (j & stc & Hdds & Hret).
    injection Hret as <- <- <-.
    destruct (add_image_state _ _ _ _ Hdds) as [_ (extra & Hext)].
    split; [|exact (add_image_is _ _ _ _ Hdds)].
    rewrite Hext. apply image_is_app.
    destruct (path_exists (strip4 path ++ ".png")%string).
    + apply bind_Ok in Hreg as (i & stb' & Hreg & Hret).
      injection Hret as <- <-. exact (add_image_is _ _ _ _ Hreg).
    + destruct (path_exists (strip4 path ++ ".jpg")%string).
      * apply bind_Ok in Hreg as (i & stb' & Hreg & Hret).
        injection Hret as <- <-. exact (add_image_is _ _ _ _ Hreg).
      * apply bind_Ok in Hreg as ([] & stb' & _ & Hret).
        injection Hret as _ <-. exact I.
  - intros H. apply bind_Ok in H as (i & stb & Hreg & Hret).
    injection Hret as <- <- <-.
    split; [exact (add_image_is _ _ _ _ Hreg)|exact I].
Qed.

(** *** The texture behind a texture path *)

Lemma find_texture_found r d texs n t :
  find_texture r d texs n = Ok (inl t) ->
  exists k texture,
    t = n + k /\ texs !! k = Some texture
    /\ find_texture r d [texture] 0 = Ok (inl 0).
Proof.
  revert n. induction texs as [|texture rest IH]; intros n;
    cbn [find_texture]; [discriminate|].
  destruct (subscript texture "source") as [source|e] eqn:Es; cbn [rbind];
    [|discriminate].
  destruct (eq_index source r) eqn:Er.
  - intros [= <-]. exists 0, texture. repeat split; [lia|].
    cbn [find_texture]. rewrite Es. cbn [rbind]. now rewrite Er.
  - destruct texture as [| | | | | |tm]; try discriminate.
    destruct (tm !! "extensions") as [ext|] eqn:Ee.
    + destruct (subscript ext "MSFT_texture_dds") as [dds|e] eqn:Ed;
        cbn [rbind]; [|discriminate].
      destruct (subscript dds "source") as [ds|e] eqn:Eds; cbn [rbind];
        [|discriminate].
      destruct (eq_index ds d) eqn:Edd.
      * intros [= <-]. exists 0, (JObj tm). repeat split; [lia|].
        cbn [find_texture]. rewrite Es. cbn [rbind]. rewrite Er, Ee, Ed.
        cbn [rbind]. rewrite Eds. cbn [rbind]. now rewrite Edd.
      * intros H. destruct (IH _ H) as (k & tx & -> & Hk & Hp).
        exists (S k), tx. repeat split; [lia|exact Hk|exact Hp].
    + intros H. destruct (IH _ H) as (k & tx & -> & Hk & Hp).
      exists (S k), tx. repeat split; [lia|exact Hk|exact Hp].
Qed.

Lemma find_texture_counter r d texs n m :
  find_texture r d texs n = Ok (inr m) -> m = n + length texs.
Proof.
  revert n. induction texs as [|texture rest IH]; intros n;
    cbn [find_texture].
  - intros [= <-]. simpl. lia.
  - destruct (subscript texture "source") as [source|e]; cbn [rbind];
      [|discriminate].
    destruct (eq_index source r); [discriminate|].
    destruct texture as [| | | | | |tm]; try discriminate.
    destruct (tm !! "extensions") as [ext|].
    + destruct (subscript ext "MSFT_texture_dds") as [dds|e]; cbn [rbind];
        [|discriminate].
      destruct (subscript dds "source") as [ds|e]; cbn [rbind];
        [|discriminate].
      destruct (eq_index ds d); [discriminate|].
      intros H. apply IH in H. simpl. lia.
    + intros H. apply IH in H. simpl. lia.
Qed.

(** X11.  The index [add_texture] returns is an index of the texture list.
    The entry there passes the test of lines 75-76 for the images of the
    path, or it is the entry lines 80-85 have just built from them. *)
Theorem add_texture_returns_an_entry
    (path_exists : string -> bool) (path : string) (st st' : state)
    (t : nat) :
  add_texture path_exists (JStr path) st = (st', Ok t) ->
  exists texture r d,
    textures st' !! t = Some texture
    /\ (texture_images path_exists path st).2 = Ok (r, d)
    /\ (find_texture r d [texture] 0 = Ok (inl 0)
        \/ (texture = new_texture r d
            /\ textures st' = textures st ++ [texture])).
Proof.
  unfold add_texture. intros H.
  apply bind_Ok in H as ([r d] & sta & Himages & H).
  pose proof (texture_images_textures path_exists path st) as Htex.
  rewrite Himages in Htex. simpl in Htex.
  apply bind_Ok in H as (texs & stb & Hgets & H). injection Hgets as <- <-.
  apply bind_Ok in H as (res & stc & Hfind & H).
  apply lift_Ok in Hfind as [Hfind ->].
  destruct res as [t'|t'].
  - injection H as <- <-.
    apply find_texture_found in Hfind as (k & texture & -> & Hk & Hp).
    exists texture, r, d. rewrite Himages. auto.
  - apply bind_Ok in H as ([] & std & Hmod & H).
    injection Hmod as <-. injection H as <- <-.
    apply find_texture_counter in Hfind as ->. simpl.
    exists (new_texture r d), r, d. rewrite Himages. split.
    + rewrite lookup_app_r by lia. now rewrite Nat.sub_diag.
    + split; [reflexivity|]. right. now rewrite Htex.
Qed.

(** *** Properties kept by the loop, given that [add_texture] and
    [diffuse_factor] keep them *)

Section Frame.

Variable path_exists : string -> bool.
Variable spec_gloss : bool.
Variable I : state -> Prop.
Hypothesis I_add_texture : forall v, preserves I (add_texture path_exists v).
Hypothesis I_diffuse_factor :
  forall name matdef key block,
    preserves I (diffuse_factor name matdef key block).
Hypothesis I_newmatlist : forall l st, I st -> I (set_newmatlist l st).

Lemma texture_slots_keeps matdef node block :
  preserves I (texture_slots path_exists spec_gloss matdef node block).
Proof.
  unfold texture_slots, texture_slot.
  repeat first [ apply I_add_texture | preserves_step ].
Qed.

Lemma factors_keeps name matdef block d s :
  preserves I (factors spec_gloss name matdef block d s).
Proof.
  unfold factors.
  repeat first [ apply I_diffuse_factor
               | apply metallic_roughness_preserves
               | preserves_step ].
Qed.

Lemma process_matnode_keeps matnode :
  preserves I (process_matnode path_exists spec_gloss matnode).
Proof.
  unfold process_matnode, rewrite_matnode, warn_missing, passthrough.
  apply preserves_bind; [apply preserves_gets|intros m].
  destruct (lookup_matdef m matnode) as [[name matdef]|e].
  - repeat first [ apply texture_slots_keeps
                 | apply factors_keeps
                 | apply preserves_modify; intros; apply I_newmatlist;
                   assumption
                 | preserves_step ].
  - destruct e; apply preserves_raise.
Qed.

Lemma material_loop_keeps nodes :
  preserves I (material_loop path_exists spec_gloss nodes).
Proof.
  induction nodes as [|matnode rest IH]; simpl.
  - apply preserves_ret.
  - apply preserves_bind; [apply process_matnode_keeps|intros _; exact IH].
Qed.

End Frame.

(** *** The image list and the texture list only grow *)

Lemma add_texture_extends_textures path_exists v st :
  exists more,
    textures (add_texture path_exists v st).1 = textures st ++ more.
Proof.
  destruct v as [| | | |path| |]; try (exists []; now rewrite app_nil_r).
  unfold add_texture, bind.
  pose proof (texture_images_textures path_exists path st) as Htex.
  destruct (texture_images path_exists path st) as [sta [[r d]|e]];
    simpl in Htex; simpl; [|exists []; now rewrite app_nil_r].
  unfold gets, lift.
  destruct (find_texture r d (textures sta) 0) as [[t|t]|e]; simpl;
    rewrite ?Htex.
  - exists []. now rewrite app_nil_r.
  - eauto.
  - exists []. now rewrite app_nil_r.
Qed.

Lemma add_image_extends_images u st :
  exists more, images (add_image u st).1 = images st ++ more.
Proof.
  unfold add_image, bind, gets, lift, modify, ret. simpl.
  destruct (find_image u (images st) 0) as [[j|m]|e]; simpl; eauto;
    exists []; now rewrite app_nil_r.
Qed.

Lemma material_loop_extends
    (path_exists : string -> bool) (spec_gloss : bool) (nodes : list json)
    (st : state) :
  (exists more,
     images (material_loop path_exists spec_gloss nodes st).1
     = images st ++ more)
  /\ (exists more,
        textures (material_loop path_exists spec_gloss nodes st).1
        = textures st ++ more).
Proof.
  split.
  - apply (material_loop_preserves path_exists spec_gloss
             (fun s => exists more, images s = images st ++ more));
      try (intros; assumption).
    + intros u s (more & Hs).
      destruct (add_image_extends_images u s) as (more' & ->).
      exists (more ++ more'). now rewrite Hs, app_assoc.
    + intros line s H. exact H.
    + exists []. now rewrite app_nil_r.
  - apply (material_loop_keeps path_exists spec_gloss
             (fun s => exists more, textures s = textures st ++ more)).
    + intros v s (more & Hs).
      destruct (add_texture_extends_textures path_exists v s) as (more' & ->).
      exists (more ++ more'). now rewrite Hs, app_assoc.
    + intros name matdef key block.
      apply diffuse_factor_preserves; intros; assumption.
    + intros l s H. exact H.
    + exists []. now rewrite app_nil_r.
Qed.

(** X13.  Every entry the image list and the texture list hold when the loop
    starts is still there, at the same index, when the loop ends, however
    it ends: the two lists only receive new entries at their end. *)
Theorem material_loop_only_appends
    (path_exists : string -> bool) (spec_gloss : bool) (nodes : list json)
    (st : state) :
  (exists more,
     images (material_loop path_exists spec_gloss nodes st).1
     = images st ++ more)
  /\ (exists more,
        textures (material_loop path_exists spec_gloss nodes st).1
        = textures st ++ more).
Proof. apply material_loop_extends. Qed.

(** *** The DDS extension is declared for every DDS texture added *)

Lemma new_texture_extensions r :
  subscript (new_texture r None) "extensions" = Raise KeyError.
Proof. destruct r; reflexivity. Qed.

Lemma texture_images_flag path_exists path st :
  anyDdsTextures (texture_images path_exists path st).1 = true
  \/ (anyDdsTextures (texture_images path_exists path st).1
      = anyDdsTextures st
      /\ forall r d, (texture_images path_exists path st).2 = Ok (r, d) ->
                     d = None).
Proof.
  unfold texture_images.
  destruct (endswith (lower path) ".dds").
  - left. unfold bind at 1, modify at 1.
    refine (preserves_bind (fun s => anyDdsTextures s = true) _ _ _ _
              (set_anyDdsTextures true st) eq_refl).
    + repeat first
        [ apply add_image_preserves; intros; assumption
        | match goal with
          | |- preserves _ (print _) => intros s H; exact H
          end
        | preserves_step ].
    + intros r.
      repeat first
        [ apply add_image_preserves; intros; assumption | preserves_step ].
  - right. unfold bind.
    pose proof (add_image_preserves
                  (fun s => anyDdsTextures s = anyDdsTextures st) path
                  ltac:(intros; assumption) st eq_refl) as Hflag.
    destruct (add_image path st) as [s1 [i|e]]; simpl in *;
      (split; [exact Hflag|]); intros r d [=]; congruence.
Qed.


Lemma add_texture_keeps_dds_declared path_exists (st0 : state) v :
  preserves
    (fun s => anyDdsTextures s = true
              \/ exists ts,
                   textures s = textures st0 ++ ts
                   /\ Forall (fun t => subscript t "extensions"
                                       = Raise KeyError) ts)
    (add_texture path_exists v).
Proof.
  intros s HJ. destruct v as [| | | |path| |]; try exact HJ.
  unfold add_texture, bind.
  pose proof (texture_images_textures path_exists path s) as Htex.
  pose proof (texture_images_flag path_exists path s) as Hflag.
  destruct (texture_images path_exists path s) as [sta [[r d]|e]];
    simpl in Htex, Hflag.
  - unfold gets, lift.
    destruct Hflag as [Hset|[Hsame Hd]].
    + left. destruct (find_texture r d (textures sta) 0) as [[t|t]|e];
        exact Hset.
    + rewrite (Hd r d eq_refl).
      destruct (find_texture r None (textures sta) 0) as [[t|t]|e]; simpl;
        try (destruct HJ as [HJ|HJ]; [left; congruence|right; now rewrite Htex]).
      destruct HJ as [HJ|(ts & Hts & Hall)]; [left; simpl; congruence|].
      right. exists (ts ++ [new_texture r None]).
      rewrite Htex, Hts, app_assoc. split; [reflexivity|].
      apply Forall_app. split; [exact Hall|].
      repeat constructor. apply new_texture_extensions.
  - simpl. destruct Hflag as [Hset|[Hsame _]]; [now left|].
    destruct HJ as [HJ|HJ]; [left; congruence|right; now rewrite Htex].
Qed.

(** X14.  A run that completes and has appended a texture with an
    [extensions] member declares [MSFT_texture_dds] in [extensionsUsed]:
    either the extension is declared, or none of the appended textures
    has the member. *)
Theorem dds_extension_is_declared
    (path_exists : string -> bool) (spec_gloss : bool)
    (defs : gmap string json) (doc doc' : gltf) :
  merge path_exists spec_gloss defs doc = Ok doc' ->
  exists ts,
    gltf_textures doc' = gltf_textures doc ++ ts
    /\ (In (JStr "MSFT_texture_dds") (extensionsUsed doc')
        \/ Forall (fun t => subscript t "extensions" = Raise KeyError) ts).
Proof.
  unfold merge. intros H.
  pose proof (material_loop_keeps path_exists spec_gloss _
                (add_texture_keeps_dds_declared path_exists
                   (initial_state defs doc))
                ltac:(intros name matdef key block;
                      apply diffuse_factor_preserves; intros; assumption)
                ltac:(intros l s Hs; exact Hs)
                (materials doc) (initial_state defs doc)) as HJ.
  destruct (material_loop_extends path_exists spec_gloss (materials doc)
              (initial_state defs doc)) as [_ (more & Hmore)].
  destruct (material_loop path_exists spec_gloss (materials doc)
              (initial_state defs doc)) as [st [[]|e]]; [|discriminate].
  injection H as <-. simpl in *.
  destruct HJ as [Hflag|(ts & Hts & Hall)].
  - right. exists []. split; [now rewrite app_nil_r|constructor].
  - exists more. split; [exact Hmore|]. left. rewrite Hflag.
    apply in_or_app. right. apply in_or_app. right. now left.
  - exists ts. split; [exact Hts|]. now right.
Qed.


(** *** The nodes a completed run writes *)

Lemma alpha_mode_cases matdef node node' :
  alpha_mode matdef node = Ok node' ->
  node' = <[ "doubleSided" := JBool true ]>
            (<[ "alphaMode" := JStr "MASK" ]> node)
  \/ node' = <[ "doubleSided" := JBool true ]>
               (<[ "alphaMode" := JStr "BLEND" ]> node)
  \/ node' = <[ "alphaMode" := JStr "OPAQUE" ]> node.
Proof.
  unfold alpha_mode. intros H.
  apply rbind_Ok in H as (a & _ & H).
  destruct (truthy a); [injection H as <-; auto|].
  apply rbind_Ok in H as (t & _ & H).
  destruct (truthy t); injection H as <-; auto.
Qed.

Lemma emissive_factor_key matdef node node' k :
  emissive_factor matdef node = Ok node' ->
  k <> "emissiveFactor" -> node' !! k = node !! k.
Proof.
  unfold emissive_factor. intros H Hk.
  apply rbind_Ok in H as (em & _ & H).
  apply rbind_Ok in H as (a & _ & H).
  destruct a; [|now injection H as <-].
  apply rbind_Ok in H as (n & _ & H).
  destruct (n =? 3)%nat; injection H as <-; [|reflexivity].
  now rewrite lookup_insert_ne.
Qed.

Section Nodes.

Variable path_exists : string -> bool.
Variable spec_gloss : bool.

Lemma texture_slots_key matdef node block st st' node' block' d s k :
  texture_slots path_exists spec_gloss matdef node block st
  = (st', Ok (node', block', d, s)) ->
  k <> "emissiveTexture" -> k <> "normalTexture" ->
  node' !! k = node !! k.
Proof.
  unfold texture_slots. intros H Hk1 Hk2.
  apply bind_Ok in H as (texdefs & st0 & _ & H).
  destruct (truthy texdefs).
  - apply bind_Ok in H as ([t1 n1] & st1 & H1 & H).
    apply bind_Ok in H as ([t2 n2] & st2 & H2 & H).
    apply bind_Ok in H as ([t3 n3] & st3 & H3 & H).
    apply bind_Ok in H as ([t4 n4] & st4 & H4 & H).
    inversion H; subst; clear H. simpl in *.
    rewrite (texture_slot_key _ _ _ _ _ _ _ _ _ k H2) by done.
    now rewrite (texture_slot_key _ _ _ _ _ _ _ _ _ k H1) by done.
  - inversion H; subst. reflexivity.
Qed.

Lemma rewrite_matnode_result name matdef st st' :
  rewrite_matnode path_exists spec_gloss name matdef st = (st', Ok tt) ->
  exists o,
    newmatlist st' = newmatlist st ++ [o]
    /\ rewritten_node spec_gloss name o.
Proof.
  unfold rewrite_matnode. intros H.
  apply bind_Ok in H as (node1 & st1 & H1 & H).
  apply lift_Ok in H1 as [H1 ->].
  apply bind_Ok in H as (node2 & st2 & H2 & H).
  apply lift_Ok in H2 as [H2 ->].
  apply bind_Ok in H as ([[[node3 block] d] s] & st3 & H3 & H).
  apply bind_Ok in H as (block' & st4 & H4 & H).
  injection H as <-.
  exists (JObj (attach_block spec_gloss node3 block')). split.
  { simpl. f_equal.
    pose proof (factors_newmatlist spec_gloss name matdef block d s st3) as Hf.
    rewrite H4 in Hf. simpl in Hf. rewrite Hf.
    pose proof (texture_slots_newmatlist path_exists spec_gloss matdef
                  node2 ∅ st) as Ht.
    now rewrite H3 in Ht. }
  assert (Hkey : forall k,
             k <> "emissiveTexture" -> k <> "normalTexture" ->
             k <> "emissiveFactor" -> node3 !! k = node1 !! k).
  { intros k Hk1 Hk2 Hk3.
    rewrite (texture_slots_key _ _ _ _ _ _ _ _ _ k H3 Hk1 Hk2).
    exact (emissive_factor_key _ _ _ k H2 Hk3). }
  unfold rewritten_node, attach_block, subscript.
  destruct (alpha_mode_cases _ _ _ H1) as [-> | [-> | ->]];
    destruct spec_gloss;
    rewrite ?lookup_insert_eq, ?(lookup_insert_ne _ "extensions"),
      ?(lookup_insert_ne _ "pbrMetallicRoughness") by done;
    rewrite !Hkey by done;
    rewrite ?lookup_insert_eq, ?(lookup_insert_ne _ "doubleSided"),
      ?(lookup_insert_ne _ "alphaMode") by done;
    rewrite ?lookup_insert_eq, ?lookup_singleton_eq,
      ?lookup_singleton_ne by done;
    (split; [reflexivity|]); split; eauto;
    eexists; (split; [reflexivity|]); simpl; auto.
Qed.

Lemma process_matnode_result (matnode : json) (st st' : state) :
  process_matnode path_exists spec_gloss matnode st = (st', Ok tt) ->
  exists name o,
    subscript matnode "name" = Ok (JStr name)
    /\ is_Some (mat st !! name)
    /\ newmatlist st' = newmatlist st ++ [o]
    /\ rewritten_node spec_gloss name o.
Proof.
  unfold process_matnode, bind at 1, gets. intros H.
  destruct (lookup_matdef (mat st) matnode) as [[name matdef]|e] eqn:Elook.
  - apply lookup_matdef_Ok in Elook as [Hname Hdef].
    destruct (rewrite_matnode_result name matdef st st' H) as (o & Ho & Hr).
    exists name, o. rewrite Hdef. eauto.
  - destruct e; discriminate.
Qed.

(** X15.  A node the loop gets past was found in the definitions under its
    name, and what the loop appended for it is a node of that name with
    an alpha mode among [OPAQUE], [MASK] and [BLEND], double sided unless
    opaque, and exactly one shading block: the specular-glossiness
    extension in that mode and no [pbrMetallicRoughness], else
    [pbrMetallicRoughness] and no [extensions]. *)
Theorem processed_node_is_rewritten (matnode : json) (st st' : state) :
  process_matnode path_exists spec_gloss matnode st = (st', Ok tt) ->
  exists name o,
    subscript matnode "name" = Ok (JStr name)
    /\ is_Some (mat st !! name)
    /\ newmatlist st' = newmatlist st ++ [o]
    /\ rewritten_node spec_gloss name o.
Proof. apply process_matnode_result. Qed.

Lemma diffuse_factor_keeps_dom (D : gset string) name matdef key block :
  preserves (fun s => dom (mat s) = D) (diffuse_factor name matdef key block).
Proof.
  unfold diffuse_factor.
  repeat first
    [ apply preserves_modify; intros s Hs; simpl; rewrite ?dom_alter_L;
      exact Hs
    | preserves_step ].
Qed.

Lemma process_matnode_keeps_dom (D : gset string) matnode :
  preserves (fun s => dom (mat s) = D)
            (process_matnode path_exists spec_gloss matnode).
Proof.
  apply process_matnode_keeps.
  - intros v. apply add_texture_preserves; try (intros; assumption).
    + intros path. apply add_image_preserves. intros; assumption.
    + intros line s Hs. exact Hs.
  - apply diffuse_factor_keeps_dom.
  - intros l s Hs. exact Hs.
Qed.

Lemma material_loop_result (D : gset string) nodes st st' :
  dom (mat st) = D ->
  material_loop path_exists spec_gloss nodes st = (st', Ok tt) ->
  exists out,
    newmatlist st' = newmatlist st ++ out
    /\ Forall2 (fun n o =>
                  exists name,
                    subscript n "name" = Ok (JStr name)
                    /\ name ∈ D
                    /\ subscript o "name" = Ok (JStr name))
               nodes out.
Proof.
  revert st. induction nodes as [|matnode rest IH]; intros st HD H.
  - injection H as <-. exists []. rewrite app_nil_r. split; constructor.
  - simpl in H. apply bind_Ok in H as ([] & st1 & Hnode & Hrest).
    pose proof (process_matnode_keeps_dom D matnode st HD) as HD1.
    rewrite Hnode in HD1. simpl in HD1.
    destruct (process_matnode_result matnode st st1 Hnode)
      as (name & o & Hname & Hdef & Hout & Ho & _).
    destruct (IH st1 HD1 Hrest) as (out & Hout' & Hall).
    exists (o :: out). split.
    + rewrite Hout', Hout, <- app_assoc. reflexivity.
    + constructor; [|exact Hall]. exists name. repeat split; try assumption.
      rewrite <- HD. now apply elem_of_dom.
Qed.

(** X16.  A run that completes has written one node for each node of the
    scene, in the order of the scene and under the same name, and every
    one of these names is a key of the definitions: with a node whose
    name is not, the run does not complete. *)
Theorem completed_run_keeps_the_order_of_the_scene
    (defs : gmap string json) (doc doc' : gltf) :
  merge path_exists spec_gloss defs doc = Ok doc' ->
  Forall2 (fun n o =>
             exists name,
               subscript n "name" = Ok (JStr name)
               /\ is_Some (defs !! name)
               /\ subscript o "name" = Ok (JStr name))
          (materials doc) (materials doc').
Proof.
  unfold merge. intros H.
  destruct (material_loop path_exists spec_gloss (materials doc)
              (initial_state defs doc)) as [st [[]|e]] eqn:Hrun;
    [|discriminate].
  injection H as <-. simpl.
  destruct (material_loop_result (dom defs) _ _ _ eq_refl Hrun)
    as (out & -> & Hall). simpl.
  eapply Forall2_impl; [exact Hall|].
  intros n o (name & Hn & Hin & Ho). exists name.
  repeat split; try assumption. now apply elem_of_dom.
Qed.

End Nodes.


(** *** The colors *)

(** X17.  [diffuseFactor.append(opacity)] changes the list held by the
    definition.  A definition with a 3-component diffuse color gives the
    color, with the opacity as fourth component (1.0 when the definition
    has none), to the node being rewritten, and is left with the
    4-component list; whenever that definition is used again, for a later
    node of the same name, no diffuse or base color factor is set. *)
Theorem diffuse_color_is_given_once
    (name key : string) (md block : gmap string json) (l : list json)
    (st : state) :
  mat st !! name = Some (JObj md) ->
  md !! "Diffuse" = Some (JArr l) ->
  length l = 3 ->
  let color := JArr (l ++ [default (JFloat 1) (md !! "Opacity")]) in
  let md' := <[ "Diffuse" := color ]> md in
  (diffuse_factor name (JObj md) key block st).2
  = Ok (<[ key := color ]> block)
  /\ mat (diffuse_factor name (JObj md) key block st).1 !! name
     = Some (JObj md')
  /\ forall key2 block2 st2,
       (diffuse_factor name (JObj md') key2 block2 st2).2 = Ok block2.
Proof.
  intros Hdef Hd Hlen color md'. repeat split.
  - unfold diffuse_factor, bind, lift, modify, ret, dict_get.
    rewrite Hd. simpl. rewrite Hlen. reflexivity.
  - unfold diffuse_factor, bind, lift, modify, ret, dict_get.
    rewrite Hd. simpl. rewrite Hlen. simpl.
    rewrite lookup_alter_eq, Hdef. reflexivity.
  - intros key2 block2 st2.
    unfold diffuse_factor, bind, lift, modify, ret, dict_get, md'.
    rewrite lookup_insert_eq. simpl. rewrite length_app, Hlen. reflexivity.
Qed.

(** X18.  In metallic-roughness mode the metallic factor reads the variable
    [diffuseFactor], which only a definition without diffuse texture
    assigns.  While no such definition has been processed, a definition
    with a diffuse texture, no specular texture and a 3-component
    specular color raises [NameError]. *)
Theorem metallic_factor_needs_an_earlier_diffuse_color
    (name : string) (md block : gmap string json) (l : list json)
    (diffuseTexture specularTexture : json) (st : state) :
  diffuseFactor st = None ->
  truthy diffuseTexture = true ->
  truthy specularTexture = false ->
  md !! "Specular" = Some (JArr l) ->
  length l = 3 ->
  factors false name (JObj md) block diffuseTexture specularTexture st
  = (st, Raise NameError).
Proof.
  intros Hunbound Hd Hs Hspec Hlen.
  destruct l as [|s0 [|s1 [|s2 [|]]]]; try discriminate.
  unfold factors. rewrite Hd, Hs. simpl.
  unfold metallic_roughness, metallic_channel, bind, ret, lift, gets,
    dict_get.
  rewrite Hspec. simpl. rewrite Hunbound. reflexivity.
Qed.


(** *** The metallic factor *)

Lemma is_number_as_num v :
  is_number v = true -> exists x, as_num v = Some x.
Proof. unfold is_number. destruct (as_num v) as [x|]; [eauto|discriminate]. Qed.

Lemma round_to_float_cases f :
  (exists q, round_to_float f = Ok q) \/ round_to_float f = Raise OverflowError.
Proof. destruct f; simpl; eauto. Qed.

Lemma to_float_cases x :
  (exists q, to_float x = Ok q) \/ to_float x = Raise OverflowError.
Proof. destruct x; simpl; [apply round_to_float_cases|eauto]. Qed.

(** The sum of two numbers is a number, unless an [int] is too large
    for the [float] it meets. *)
Lemma py_add_numbers a b x y :
  as_num a = Some x -> as_num b = Some y ->
  (exists z, py_add a b = Ok z /\ is_number z = true)
  \/ py_add a b = Raise OverflowError.
Proof.
  intros Ha Hb. unfold py_add. rewrite Ha, Hb.
  destruct x as [n|f], y as [n'|f']; try (left; eexists; split; reflexivity).
  - destruct (to_float_cases (NInt n)) as [[q ->]| ->]; simpl;
      [left; eexists; split; reflexivity | now right].
  - destruct (to_float_cases (NInt n')) as [[q ->]| ->]; simpl;
      [left; eexists; split; reflexivity | now right].
Qed.

(** The quotient of two numbers is a [float], unless the divisor is zero,
    an [int] is too large for the [float] it meets, or the quotient of
    two [int]s is. *)
Lemma py_div_numbers a b x y :
  as_num a = Some x -> as_num b = Some y ->
  (exists q, py_div a b = Ok (JFloat q))
  \/ py_div a b = Raise ZeroDivisionError
  \/ py_div a b = Raise OverflowError.
Proof.
  intros Ha Hb. unfold py_div. rewrite Ha, Hb.
  assert (Hfloat : forall u v,
             (exists q, rbind (float_div u v) (fun q => Ok (JFloat q))
                        = Ok (JFloat q))
             \/ rbind (float_div u v) (fun q => Ok (JFloat q))
                = Raise ZeroDivisionError
             \/ rbind (float_div u v) (fun q => Ok (JFloat q))
                = Raise OverflowError).
  { intros u v. unfold float_div.
    destruct (to_float_cases u) as [[p ->]| ->]; simpl; [|auto].
    destruct (to_float_cases v) as [[q ->]| ->]; simpl; [|auto].
    destruct (PrimFloat.eqb q 0); simpl; eauto. }
  destruct x as [n|f], y as [n'|f']; try apply Hfloat.
  unfold int_true_divide. destruct (n' =? 0)%Z; simpl; [auto|].
  destruct (round_to_float_cases
              (SFdiv FloatOps.prec FloatOps.emax (exact_int n) (exact_int n')))
    as [[q ->]| ->]; simpl; eauto.
Qed.

(** A numeric divisor that is zero: the division by the sum of a channel
    raises [ZeroDivisionError]. *)
Lemma py_div_zero_sum s d :
  is_number s = true -> is_number d = true -> zero_sum s d = true ->
  exists z, py_add s d = Ok z /\ py_div s z = Raise ZeroDivisionError.
Proof.
  intros Hs Hd Hz.
  destruct (is_number_as_num s Hs) as [x Hx].
  destruct (is_number_as_num d Hd) as [y Hy].
  unfold zero_sum in Hz. unfold py_add in *. rewrite Hx, Hy in *.
  destruct x as [n|f], y as [n'|f'].
  - eexists. split; [reflexivity|]. simpl in Hz.
    apply negb_true_iff, negb_false_iff in Hz.
    unfold py_div. rewrite Hx. simpl. unfold int_true_divide. now rewrite Hz.
  - simpl in *. destruct (float_of_int n) as [p|e] eqn:Ep; simpl in *;
      [|discriminate].
    eexists. split; [reflexivity|].
    apply negb_true_iff, negb_false_iff in Hz.
    unfold py_div. rewrite Hx. simpl. unfold float_div. simpl.
    rewrite Ep. simpl. now rewrite Hz.
  - simpl in *. destruct (float_of_int n') as [p|e] eqn:Ep; simpl in *;
      [|discriminate].
    eexists. split; [reflexivity|].
    apply negb_true_iff, negb_false_iff in Hz.
    unfold py_div. rewrite Hx. simpl. unfold float_div. simpl. now rewrite Hz.
  - simpl in *. eexists. split; [reflexivity|].
    apply negb_true_iff, negb_false_iff in Hz.
    unfold py_div. rewrite Hx. simpl. unfold float_div. simpl. now rewrite Hz.
Qed.

#[local] Arguments metallic_channel : simpl never.

Section Metallic.

Variables (md block : gmap string json) (st : state).
Variables (s0 s1 s2 d0 d1 d2 : json) (rest : list json).
Hypothesis Hspecular : md !! "Specular" = Some (JArr [s0; s1; s2]).
Hypothesis Hdiffuse :
  diffuseFactor st = Some (JArr (d0 :: d1 :: d2 :: rest)).

(** One round of the loop of lines 173-174 on a channel whose sum is
    zero. *)
Lemma metallic_channel_zero_sum m i s d :
  [s0; s1; s2] !! i = Some s ->
  (d0 :: d1 :: d2 :: rest) !! i = Some d ->
  is_number s = true -> is_number d = true -> zero_sum s d = true ->
  metallic_channel (JArr [s0; s1; s2]) m i st = (st, Raise ZeroDivisionError).
Proof.
  intros Hs Hd Ns Nd Hz.
  destruct (py_div_zero_sum s d Ns Nd Hz) as (z & Hadd & Hdiv).
  unfold metallic_channel, bind, lift, gets, index.
  rewrite Hs, Hdiffuse, Hd, Hadd, Hdiv. reflexivity.
Qed.

(** One round on numbers: the factor stays a number, or the round raises
    [ZeroDivisionError] or [OverflowError]. *)
Lemma metallic_channel_numbers m i s d :
  [s0; s1; s2] !! i = Some s ->
  (d0 :: d1 :: d2 :: rest) !! i = Some d ->
  is_number s = true -> is_number d = true -> is_number m = true ->
  (exists m', metallic_channel (JArr [s0; s1; s2]) m i st = (st, Ok m')
              /\ is_number m' = true)
  \/ metallic_channel (JArr [s0; s1; s2]) m i st
     = (st, Raise ZeroDivisionError)
  \/ metallic_channel (JArr [s0; s1; s2]) m i st
     = (st, Raise OverflowError).
Proof.
  intros Hs Hd Ns Nd Nm.
  destruct (is_number_as_num s Ns) as [x Hx].
  destruct (is_number_as_num d Nd) as [y Hy].
  destruct (is_number_as_num m Nm) as [w Hw].
  unfold metallic_channel, bind, lift, gets, index.
  rewrite Hs, Hdiffuse, Hd.
  destruct (py_add_numbers s d x y Hx Hy) as [(z & -> & Nz)| ->]; [|auto].
  destruct (is_number_as_num z Nz) as [u Hu].
  destruct (py_div_numbers s z x u Hx Hu) as [[q ->]|[-> | ->]]; auto.
  destruct (py_add_numbers m (JFloat q) w (NFloat q) Hw eq_refl)
    as [(m' & -> & Nm')| ->]; eauto.
Qed.

(** X20.  With colors made of numbers, a channel in which the specular and
    the diffuse color add up to zero (both 0, say) keeps
    [metallic_roughness] from returning: the division of line 174 raises
    [ZeroDivisionError] on that channel, unless an earlier channel has
    already raised it or has raised [OverflowError], which an [int] too
    large for a [float] does.  On the first channel nothing comes
    earlier. *)
Theorem zero_channel_stops_the_metallic_factor :
  Forall (fun v => is_number v = true) [s0; s1; s2; d0; d1; d2] ->
  zero_sum s0 d0 || zero_sum s1 d1 || zero_sum s2 d2 = true ->
  exists e,
    metallic_roughness (JObj md) block st = (st, Raise e)
    /\ (e = ZeroDivisionError \/ e = OverflowError)
    /\ (zero_sum s0 d0 = true -> e = ZeroDivisionError).
Proof.
  intros Hnum Hzero.
  repeat match goal with
         | H : Forall _ (_ :: _) |- _ => apply Forall_cons in H as [? H]
         end.
  unfold metallic_roughness, bind, lift, ret, dict_get.
  rewrite Hspecular. simpl.
  destruct (zero_sum s0 d0) eqn:Z0.
  { rewrite (metallic_channel_zero_sum (JInt 0) 0 s0 d0) by auto.
    exists ZeroDivisionError. auto. }
  destruct (metallic_channel_numbers (JInt 0) 0 s0 d0)
    as [(m0 & -> & N0)|[-> | ->]]; auto;
    [|exists ZeroDivisionError; split; [reflexivity|split; [auto|discriminate]]
     |exists OverflowError; split; [reflexivity|split; [auto|discriminate]]].
  destruct (zero_sum s1 d1) eqn:Z1.
  { rewrite (metallic_channel_zero_sum m0 1 s1 d1) by auto.
    exists ZeroDivisionError. split; [reflexivity|split; [auto|discriminate]]. }
  destruct (metallic_channel_numbers m0 1 s1 d1)
    as [(m1 & -> & N1)|[-> | ->]]; auto;
    [|exists ZeroDivisionError; split; [reflexivity|split; [auto|discriminate]]
     |exists OverflowError; split; [reflexivity|split; [auto|discriminate]]].
  simpl in Hzero.
  rewrite (metallic_channel_zero_sum m1 2 s2 d2) by auto.
  exists ZeroDivisionError. split; [reflexivity|split; [auto|discriminate]].
Qed.

End Metallic.

(** One round of the loop of lines 173-174 on a channel of a black
    specular color: [0 / (0 + d)] is the float zero of the sign of [d],
    and the metallic factor is the float 0.0 after the round. *)
Lemma metallic_channel_black ss ds (m : json) (i : nat) (d : Z) st :
  ss !! i = Some (JInt 0) ->
  diffuseFactor st = Some (JArr ds) ->
  ds !! i = Some (JInt d) ->
  d <> 0%Z ->
  m = JInt 0 \/ m = JFloat 0 ->
  metallic_channel (JArr ss) m i st = (st, Ok (JFloat 0)).
Proof.
  intros Hs Hdiffuse Hd Hne Hm.
  unfold metallic_channel, bind, lift, gets, index.
  rewrite Hs, Hdiffuse, Hd.
  destruct Hm as [-> | ->]; destruct d as [|p|p]; try contradiction;
    reflexivity.
Qed.

(** X19.  In metallic-roughness mode a black specular color, [0, 0, 0], over
    a diffuse color of three integers other than 0 gives the metallic
    factor 0.0; the roughness is [1.0 - Shininess]. *)
Theorem black_specular_is_not_metallic
    (md block : gmap string json) (st : state) (d0 d1 d2 : Z)
    (rest : list json) (shininess roughness : json) :
  md !! "Specular" = Some (JArr [JInt 0; JInt 0; JInt 0]) ->
  diffuseFactor st = Some (JArr (JInt d0 :: JInt d1 :: JInt d2 :: rest)) ->
  d0 <> 0%Z -> d1 <> 0%Z -> d2 <> 0%Z ->
  md !! "Shininess" = Some shininess ->
  py_sub (JFloat 1) shininess = Ok roughness ->
  metallic_roughness (JObj md) block st
  = (st, Ok (<[ "roughnessFactor" := roughness ]>
               (<[ "metallicFactor" := JFloat 0 ]> block))).
Proof.
  intros Hspecular Hdiffuse H0 H1 H2 Hshine Hrough.
  unfold metallic_roughness, bind, lift, ret, dict_get.
  rewrite Hspecular, Hshine. simpl.
  rewrite (metallic_channel_black [JInt 0; JInt 0; JInt 0] _ (JInt 0) 0 d0 st
             eq_refl Hdiffuse eq_refl) by auto.
  rewrite (metallic_channel_black [JInt 0; JInt 0; JInt 0] _ (JFloat 0) 1 d1 st
             eq_refl Hdiffuse eq_refl) by auto.
  rewrite (metallic_channel_black [JInt 0; JInt 0; JInt 0] _ (JFloat 0) 2 d2 st
             eq_refl Hdiffuse eq_refl) by auto.
  change (py_div (JFloat 0) (JFloat 3)) with (Ok (JFloat 0)).
  rewrite Hrough. reflexivity.
Qed.


(** *** The properties on small documents *)

Lemma add_image_raises_witness :
  add_image "a.png"
    (initial_state ∅ (mkGltf [] [] [obj [("bufferView", JInt 0)]] []))
  = (initial_state ∅ (mkGltf [] [] [obj [("bufferView", JInt 0)]] []),
     Raise KeyError).
Proof.
  apply (add_image_raises_at_entry_without_uri
           "a.png" _ [] [] (obj [("bufferView", JInt 0)]) KeyError).
  - reflexivity.
  - constructor.
  - reflexivity.
Defined.

Lemma add_image_returns_witness :
  exists st' i,
    add_image "b.png"
      (initial_state ∅ (mkGltf [] [] [obj [("uri", JStr "a.png")]] []))
    = (st', Ok i).
Proof.
  apply add_image_returns.
  repeat constructor. exists (JStr "a.png"). reflexivity.
Defined.

(** Both companions of [wall.DDS] exist: the PNG is the regular image. *)
Lemma texture_images_witness :
  image_is
    (images (texture_images
               (fun p => String.eqb p "wall.png" || String.eqb p "wall.jpg")
               "wall.DDS" (initial_state ∅ (scene_of []))).1)
    (Some 0) (Some "wall.png").
Proof.
  destruct (texture_images
              (fun p => String.eqb p "wall.png" || String.eqb p "wall.jpg")
              "wall.DDS" (initial_state ∅ (scene_of [])))
    as [sta r] eqn:Erun.
  assert (Hr : r = Ok (Some 0, Some 1)).
  { apply (f_equal snd) in Erun. vm_compute in Erun. now subst r. }
  subst r.
  exact (proj1 (texture_images_are_the_companions _ _ _ _ _ _ Erun)).
Defined.

Lemma add_texture_returns_witness :
  exists texture,
    textures (add_texture no_file (JStr "a.png")
                (initial_state ∅ (scene_of []))).1 !! 0
    = Some texture.
Proof.
  destruct (add_texture no_file (JStr "a.png")
              (initial_state ∅ (scene_of []))) as [st' r] eqn:Erun.
  assert (Hr : r = Ok 0).
  { apply (f_equal snd) in Erun. vm_compute in Erun. now subst r. }
  subst r.
  destruct (add_texture_returns_an_entry _ _ _ _ _ Erun)
    as (texture & _ & _ & Ht & _).
  exists texture. exact Ht.
Defined.

Lemma add_texture_again_witness :
  (add_texture no_file (JStr "a.png")
     (add_texture no_file (JStr "a.png")
        (initial_state ∅ (scene_of []))).1).2
  = Ok 0.
Proof.
  destruct (add_texture no_file (JStr "a.png")
              (initial_state ∅ (scene_of []))) as [st1 r] eqn:Erun.
  assert (Hr : r = Ok 0).
  { apply (f_equal snd) in Erun. vm_compute in Erun. now subst r. }
  subst r.
  refine (proj1 (add_texture_again no_file "a.png" _ st1 0 0 None Erun _
                   st1 [] [] _ _)).
  - reflexivity.
  - now rewrite app_nil_r.
  - now rewrite app_nil_r.
Defined.

(** One node with a DDS diffuse texture, in specular-glossiness mode. *)
Lemma dds_extension_witness :
  exists doc' ts,
    merge no_file true {[ "M1" := dds_definition ]}
          (scene_of [obj [("name", JStr "M1")]]) = Ok doc'
    /\ gltf_textures doc' = ts
    /\ (In (JStr "MSFT_texture_dds") (extensionsUsed doc')
        \/ Forall (fun t => subscript t "extensions" = Raise KeyError) ts).
Proof.
  destruct (merge no_file true {[ "M1" := dds_definition ]}
              (scene_of [obj [("name", JStr "M1")]])) as [doc'|e] eqn:Erun;
    [|vm_compute in Erun; discriminate].
  destruct (dds_extension_is_declared _ _ _ _ _ Erun) as (ts & Hts & H).
  exists doc', ts. auto.
Defined.

Lemma processed_node_witness :
  exists name o,
    newmatlist
      (process_matnode no_file false (obj [("name", JStr "Lamp")])
         (initial_state
            {[ "Lamp" := emissive_definition (JArr [JInt 0; JInt 2; JInt 0]) ]}
            (scene_of []))).1
    = [o]
    /\ rewritten_node false name o.
Proof.
  destruct (process_matnode no_file false (obj [("name", JStr "Lamp")])
         (initial_state
            {[ "Lamp" := emissive_definition (JArr [JInt 0; JInt 2; JInt 0]) ]}
            (scene_of []))) as [st' r] eqn:Erun.
  assert (Hr : r = Ok tt).
  { apply (f_equal snd) in Erun. vm_compute in Erun. now subst r. }
  subst r.
  destruct (processed_node_is_rewritten _ _ _ _ _ Erun)
    as (name & o & _ & _ & Hout & Hshape).
  exists name, o. auto.
Defined.

Lemma completed_run_witness :
  exists doc',
    merge no_file false
          {[ "Lamp" := emissive_definition (JArr [JInt 0; JInt 2; JInt 0]) ]}
          (scene_of [obj [("name", JStr "Lamp")]]) = Ok doc'
    /\ length (materials doc') = 1.
Proof.
  destruct (merge no_file false
          {[ "Lamp" := emissive_definition (JArr [JInt 0; JInt 2; JInt 0]) ]}
          (scene_of [obj [("name", JStr "Lamp")]])) as [doc'|e] eqn:Erun;
    [|vm_compute in Erun; discriminate].
  exists doc'. split; [reflexivity|].
  pose proof (completed_run_keeps_the_order_of_the_scene _ _ _ _ _ Erun) as H.
  apply Forall2_length in H. now rewrite <- H.
Defined.

Lemma diffuse_color_witness :
  (diffuse_factor "M1" M1_definition "baseColorFactor" ∅
     (initial_state {[ "M1" := M1_definition ]} (scene_of []))).2
  = Ok {[ "baseColorFactor" := JArr [JInt 1; JInt 0; JInt 0; JFloat 1] ]}.
Proof.
  refine (proj1 (diffuse_color_is_given_once
                   "M1" "baseColorFactor"
                   (list_to_map [("AlphaTested", JBool true);
                                 ("Diffuse", JArr [JInt 1; JInt 0; JInt 0]);
                                 ("Specular", JArr [JInt 0; JInt 0; JInt 0]);
                                 ("Shininess", JFloat 0.5)])
                   ∅ [JInt 1; JInt 0; JInt 0]
                   (initial_state {[ "M1" := M1_definition ]} (scene_of []))
                   _ _ _)); vm_compute; reflexivity.
Defined.

Lemma metallic_factor_NameError_witness :
  factors false "M1" M1_definition ∅ (JStr "wall.png") JNull
    (initial_state ∅ (scene_of []))
  = (initial_state ∅ (scene_of []), Raise NameError).
Proof.
  apply (metallic_factor_needs_an_earlier_diffuse_color
           "M1" _ ∅ [JInt 0; JInt 0; JInt 0]); reflexivity.
Defined.

(** A black specular color over the diffuse color [1, 2, 3] with
    shininess 0.25. *)
Lemma black_specular_witness :
  metallic_roughness
    (obj [("Specular", JArr [JInt 0; JInt 0; JInt 0]);
          ("Shininess", JFloat 0.25)])
    ∅
    (set_diffuseFactor (Some (JArr [JInt 1; JInt 2; JInt 3; JFloat 1]))
       (initial_state ∅ (scene_of [])))
  = (set_diffuseFactor (Some (JArr [JInt 1; JInt 2; JInt 3; JFloat 1]))
       (initial_state ∅ (scene_of [])),
     Ok (<[ "roughnessFactor" := JFloat 0.75 ]>
           (<[ "metallicFactor" := JFloat 0 ]> ∅))).
Proof.
  apply (black_specular_is_not_metallic
           (list_to_map [("Specular", JArr [JInt 0; JInt 0; JInt 0]);
                         ("Shininess", JFloat 0.25)])
           ∅ _ 1 2 3 [JFloat 1] (JFloat 0.25) (JFloat 0.75));
    try reflexivity; lia.
Defined.

(** The red channel adds an [int] too large for a [float] to 1.5, the
    green channel adds up to zero: the run ends on the red channel. *)
Lemma zero_channel_witness :
  exists e,
    metallic_roughness
      (obj [("Specular", JArr [JInt (10 ^ 400); JInt 0; JInt 0])])
      ∅
      (set_diffuseFactor
         (Some (JArr [JFloat 1.5; JInt 0; JInt 0; JFloat 1]))
         (initial_state ∅ (scene_of [])))
    = (set_diffuseFactor
         (Some (JArr [JFloat 1.5; JInt 0; JInt 0; JFloat 1]))
         (initial_state ∅ (scene_of [])),
       Raise e)
    /\ (e = ZeroDivisionError \/ e = OverflowError).
Proof.
  destruct (zero_channel_stops_the_metallic_factor
              (list_to_map [("Specular", JArr [JInt (10 ^ 400); JInt 0; JInt 0])])
              ∅
              (set_diffuseFactor
                 (Some (JArr [JFloat 1.5; JInt 0; JInt 0; JFloat 1]))
                 (initial_state ∅ (scene_of [])))
              (JInt (10 ^ 400)) (JInt 0) (JInt 0)
              (JFloat 1.5) (JInt 0) (JInt 0) [JFloat 1])
    as (e & Hrun & He & _).
  - reflexivity.
  - reflexivity.
  - repeat constructor.
  - vm_compute. reflexivity.
  - exists e. split; [exact Hrun|exact He].
Defined.

End MatToGltfExtra.
